(** * Parssir: a Pratt parser for infix arithmetic, verified against [parssir.py]

    The development embeds the two components of [src/parssir.py]:

    - the [Lexer], whose [lexicalize] scans the input with the regular
      expression [\d+|[a-zA-Z_]+|[+*/()-,]] and classifies every match;
    - the [Parser], whose [parse_expression] is a precedence-climbing loop
      over the lexer's token stack.

    Python strings are modelled by [string]: a character is a code point
    below 256, and on those code points [\d] is exactly [0-9].  Python's
    exceptions are values of [PyExc]; the mutable token list of the lexer is
    threaded explicitly through the parser. *)

From Stdlib Require Import String Ascii List Bool Arith ZArith Lia.
Import ListNotations.

Open Scope string_scope.

(** ** Characters and the fragments of [re] the program uses *)

Module Re.

Definition code (c : ascii) : nat := nat_of_ascii c.

(** A range [lo-hi] inside a character class. *)
Definition in_range (lo hi c : ascii) : bool :=
  Nat.leb (code lo) (code c) && Nat.leb (code c) (code hi).

(** [\d] *)
Definition digit (c : ascii) : bool := in_range "0" "9" c.

(** [[a-zA-Z_]] *)
Definition word_start (c : ascii) : bool :=
  in_range "a" "z" c || in_range "A" "Z" c || Ascii.eqb c "_".

(** [[a-zA-Z0-9_]] *)
Definition word_char (c : ascii) : bool :=
  in_range "a" "z" c || in_range "A" "Z" c || in_range "0" "9" c
  || Ascii.eqb c "_".

(** [[+*/()-,]]: the members [+], [*], [/], [(] and the range [)-,]
    (a [-] between two members of a class denotes a range). *)
Definition punct (c : ascii) : bool :=
  Ascii.eqb c "+" || Ascii.eqb c "*" || Ascii.eqb c "/" || Ascii.eqb c "("
  || in_range ")" "," c.

(** The longest prefix of [s] whose characters satisfy [p], and the rest:
    what a greedy [[...]+] or [[...]*] consumes. *)
Fixpoint span (p : ascii -> bool) (s : string) : string * string :=
  match s with
  | EmptyString => (EmptyString, EmptyString)
  | String c r =>
      if p c then let (m, r') := span p r in (String c m, r')
      else (EmptyString, s)
  end.

(** One attempt of [\d+|[a-zA-Z_]+|[+*/()-,]] at the start of [s]: the
    alternatives are tried in order, and the match and the text after it
    are returned. *)
Definition match_at (s : string) : option (string * string) :=
  match s with
  | EmptyString => None
  | String c r =>
      if digit c then Some (span digit s)
      else if word_start c then Some (span word_start s)
      else if punct c then Some (String c EmptyString, r)
      else None
  end.

(** [re.findall]: scan from the left; after a match resume behind it,
    where nothing matches move one character on.  [fuel] bounds the number
    of scan positions. *)
Fixpoint findall_from (fuel : nat) (s : string) : list string :=
  match fuel with
  | O => []
  | S fuel' =>
      match s with
      | EmptyString => []
      | String _ r =>
          match match_at s with
          | Some (m, rest) => m :: findall_from fuel' rest
          | None => findall_from fuel' r
          end
      end
  end.

Definition findall (s : string) : list string :=
  findall_from (String.length s) s.

(** [re.fullmatch(r'\d+|[a-zA-Z_][a-zA-Z0-9_]*', s)], as a truth value. *)
Definition all_chars (p : ascii -> bool) (s : string) : bool :=
  match span p s with
  | (_, EmptyString) => true
  | _ => false
  end.

Definition fullmatch_atom (s : string) : bool :=
  match s with
  | EmptyString => false
  | String c r =>
      (digit c && all_chars digit r) || (word_start c && all_chars word_char r)
  end.

End Re.

(** ** Tokens *)

(** [OPERATORS], a set of strings used for membership only. *)
Definition OPERATORS : list string :=
  ["+"; "-"; "*"; "/"; "%"; "**"; "//"; "and"; "or"; "not";
   "=="; "!="; "<"; ">"; "<="; ">="; "("; ")"].

Definition in_OPERATORS (token : string) : bool :=
  existsb (String.eqb token) OPERATORS.

Inductive TokenType : Set := ATOM | OP | EOF.

Record Token : Set := mkToken { type : TokenType; value : string }.

Definition TokenType_eqb (a b : TokenType) : bool :=
  match a, b with
  | ATOM, ATOM | OP, OP | EOF, EOF => true
  | _, _ => false
  end.

(** ** Exceptions and outcomes *)

Inductive PyExc : Set :=
| SyntaxError (msg : string)
| KeyError (key : string)
| IndexError (msg : string).

(** The outcome of a run of the parser with a bound on its steps. *)
Inductive Outcome (A : Type) : Type :=
| Return (a : A)
| Raise (e : PyExc)
| OutOfFuel.

Arguments Return {A} a.
Arguments Raise {A} e.
Arguments OutOfFuel {A}.

(** ** The lexer *)

Module Lexer.

Definition _is_atom (token : string) : bool :=
  Re.fullmatch_atom token && negb (in_OPERATORS token).

Definition _is_operator (token : string) : bool := in_OPERATORS token.

(** The body of the [for] loop of [lexicalize]: the token appended for one
    match [lex]. *)
Definition classify (lex : string) : Token :=
  if _is_atom lex then mkToken ATOM lex
  else if _is_operator lex then mkToken OP lex
  else mkToken EOF lex.

(** The local list [tokens] of [lexicalize] when the loop ends. *)
Definition scan (expression : string) : list Token :=
  map classify (Re.findall expression).

(** [self.tokens] after [lexicalize]: the scanned tokens and the final
    [EOF], reversed, so that the next token is the last element. *)
Definition lexicalize (expression : string) : list Token :=
  rev (scan expression ++ [mkToken EOF "EOF"]).

(** [self.tokens.pop()] *)
Definition next (tokens : list Token) : PyExc + Token * list Token :=
  match rev tokens with
  | [] => inl (IndexError "pop from empty list")
  | t :: r => inr (t, rev r)
  end.

(** [self.tokens[-1]] *)
Definition peek (tokens : list Token) : PyExc + Token :=
  match rev tokens with
  | [] => inl (IndexError "list index out of range")
  | t :: _ => inr t
  end.

End Lexer.

(** ** Expressions *)

#[local] Set Warnings "-register-all".

(** [Expression.Atom] and [Expression.Operation]; an operand is an expression
    or [None], which is what [parse_expression] returns on [EOF]. *)
Inductive Expression : Set :=
| Atom (value : Token)
| Operation (op : Token) (operands : list (option Expression)).

(** ** Printing *)

Module Repr.

(** [str] of a member of the enumeration [TokenType]. *)
Definition TokenType_str (ty : TokenType) : string :=
  match ty with
  | ATOM => "TokenType.ATOM"
  | OP => "TokenType.OP"
  | EOF => "TokenType.EOF"
  end.

(** [Token.__repr__] *)
Definition Token_repr (t : Token) : string :=
  TokenType_str (type t) ++ ": " ++ value t.

End Repr.

(** ** The parser *)

Module Parser.

Definition table : list (string * (Z * Z)) :=
  [("+", (10, 11)); ("-", (10, 11)); ("*", (20, 21)); ("/", (20, 21))]%Z.

Fixpoint lookup (k : string) (d : list (string * (Z * Z))) : option (Z * Z) :=
  match d with
  | [] => None
  | (k', v) :: d' => if String.eqb k k' then Some v else lookup k d'
  end.

(** [table[op.value]] *)
Definition infix_binding_power (op : Token) : PyExc + Z * Z :=
  match lookup (value op) table with
  | Some bp => inr bp
  | None => inl (KeyError (value op))
  end.

(** [parse_expression] is split at its [while True]: [parse_expression]
    is the code before the loop, [parse_loop] one run of the loop from the
    current [lhs].  Both take the token list of the lexer and return it
    with the result. *)
Fixpoint parse_expression (fuel : nat) (tokens : list Token) (min_bp : Z)
  {struct fuel} : Outcome (option Expression * list Token) :=
  match fuel with
  | O => OutOfFuel
  | S fuel' =>
      match Lexer.next tokens with
      | inl e => Raise e
      | inr (token, tokens1) =>
          match type token with
          | ATOM => parse_loop fuel' min_bp (Atom token) tokens1
          | OP =>
              Raise (SyntaxError
                "Operation cannot be the first symbol in an expression")
          | EOF => Return (None, tokens1)
          end
      end
  end

with parse_loop (fuel : nat) (min_bp : Z) (lhs : Expression)
  (tokens : list Token) {struct fuel}
  : Outcome (option Expression * list Token) :=
  match fuel with
  | O => OutOfFuel
  | S fuel' =>
      match Lexer.peek tokens with
      | inl e => Raise e
      | inr next_token =>
          match type next_token with
          | EOF => Return (Some lhs, tokens)
          | ATOM => Raise (SyntaxError "Expect an operation, not an atom")
          | OP =>
              match infix_binding_power next_token with
              | inl e => Raise e
              | inr (l_bp, r_bp) =>
                  if (l_bp <? min_bp)%Z then Return (Some lhs, tokens)
                  else
                    match Lexer.next tokens with
                    | inl e => Raise e
                    | inr (_, tokens1) =>
                        match parse_expression fuel' tokens1 r_bp with
                        | Return (rhs, tokens2) =>
                            parse_loop fuel' min_bp
                              (Operation next_token [Some lhs; rhs]) tokens2
                        | Raise e => Raise e
                        | OutOfFuel => OutOfFuel
                        end
                    end
              end
          end
      end
  end.

(** [Parser(expression).parse_expression()]: the value returned, or the
    exception raised.  The constructor builds the lexer and prints its
    tokens; the bound on the steps is one above the number of tokens, which
    is enough on every input ([parse_expression_terminates] below). *)
Definition parse (expression : string) : Outcome (option Expression) :=
  let tokens := Lexer.lexicalize expression in
  match parse_expression (S (length tokens)) tokens 0 with
  | Return (e, _) => Return e
  | Raise e => Raise e
  | OutOfFuel => OutOfFuel
  end.

End Parser.

(** ** Vocabulary of the statements *)

Module Shape.

(** [str.isspace] on the code points below 256. *)
Definition isspace (c : ascii) : bool :=
  Re.in_range "009" "013" c || Re.in_range "028" " " c
  || Ascii.eqb c "133" || Ascii.eqb c "160".

Fixpoint forall_chars (p : ascii -> bool) (s : string) : bool :=
  match s with
  | EmptyString => true
  | String c r => p c && forall_chars p r
  end.

(** The empty and the whitespace-only strings. *)
Definition blank (s : string) : bool := forall_chars isspace s.

Fixpoint count_char (c : ascii) (s : string) : nat :=
  match s with
  | EmptyString => 0
  | String d r => (if Ascii.eqb d c then 1 else 0) + count_char c r
  end.

Definition has_type (ty : TokenType) (t : Token) : bool :=
  TokenType_eqb (type t) ty.

Definition count_type (ty : TokenType) (l : list Token) : nat :=
  length (filter (has_type ty) l).

(** The tokens in the order in which [next] hands them out. *)
Definition reading_order (tokens : list Token) : list Token := rev tokens.

Definition first_char (s : string) : option ascii :=
  match s with
  | EmptyString => None
  | String c _ => Some c
  end.

Fixpoint last_char (s : string) : option ascii :=
  match s with
  | EmptyString => None
  | String c EmptyString => Some c
  | String _ r => last_char r
  end.

(** [s1] ends and [s2] starts inside one run of digits, or inside one run
    of letters and underscores: the scanner reads across the seam. *)
Definition glued (s1 s2 : string) : bool :=
  match last_char s1, first_char s2 with
  | Some a, Some b =>
      (Re.digit a && Re.digit b) || (Re.word_start a && Re.word_start b)
  | _, _ => false
  end.

(** An operator token whose text has an entry in the binding-power
    table. *)
Definition supported (t : Token) : bool :=
  has_type OP t
  && match Parser.lookup (value t) Parser.table with
     | Some _ => true
     | None => false
     end.

(** Operator, atom, operator, atom, ...: what follows the first operand of
    a well-formed expression. *)
Fixpoint chain (q : list Token) : bool :=
  match q with
  | [] => true
  | o :: a :: q' => supported o && has_type ATOM a && chain q'
  | _ => false
  end.

(** Atom, operator, atom, ..., atom, all operators supported. *)
Definition operand_chain (q : list Token) : bool :=
  match q with
  | [] => false
  | a :: q' => has_type ATOM a && chain q'
  end.

Definition eof_free (q : list Token) : bool :=
  forallb (fun t => negb (has_type EOF t)) q.

(** The loop of [parse_expression] leaves at the head of [q] without
    consuming it: an operator whose left binding power is below
    [min_bp]. *)
Definition stops (min_bp : Z) (q : list Token) : bool :=
  match q with
  | [] => false
  | t :: _ =>
      has_type OP t
      && match Parser.lookup (value t) Parser.table with
         | Some (l_bp, _) => (l_bp <? min_bp)%Z
         | None => false
         end
  end.

(** The outcome of a call on a chain [q] before the tokens [tail]: the
    exception [E], or a return in front of an operator that binds too
    weakly. *)
Definition chain_outcome (tail : list Token) (E : PyExc) (min_bp : Z)
  (q : list Token) (r : Outcome (option Expression * list Token)) : Prop :=
  r = Raise E
  \/ exists v q',
      chain q' = true /\ length q' <= length q
      /\ stops min_bp (q' ++ tail)%list = true
      /\ r = Return (v, rev (q' ++ tail)%list).

End Shape.
(** ** Trees and token lists *)

Module Tree.
Import Shape.
#[local] Open Scope list_scope.

(** A consumed token as it shows in the tree: a token of type [EOF] leaves
    [None] behind. *)
Definition erase (t : Token) : option Token :=
  if has_type EOF t then None else Some t.

(** The tokens of a tree from left to right: the first operand, the
    operator, the other operands; an operand [None] shows as [None]. *)
Fixpoint inorder (e : Expression) : list (option Token) :=
  match e with
  | Atom t => [Some t]
  | Operation op operands =>
      let operand := fun o : option Expression =>
        match o with
        | Some x => inorder x
        | None => [None]
        end in
      match operands with
      | [] => [Some op]
      | a :: more => operand a ++ Some op :: flat_map operand more
      end
  end.

(** The same for an operand, or for the value a call returns. *)
Definition operand_inorder (v : option Expression) : list (option Token) :=
  match v with
  | Some e => inorder e
  | None => [None]
  end.

(** A call that returns a tree has stopped in front of a token of type
    [EOF], or of an operator that binds too weakly. *)
Definition stopped (min_bp : Z) (q' : list Token) : Prop :=
  exists t r, q' = t :: r /\ (type t = EOF \/ stops min_bp q' = true).

(** The trees with an atom token at every leaf and, at every operation, a
    supported operator, a first operand that is a tree and a second operand
    that is a tree or [None]. *)
Fixpoint binary (e : Expression) : bool :=
  match e with
  | Atom t => has_type ATOM t
  | Operation op [Some l; r] =>
      supported op && binary l
      && match r with
         | Some x => binary x
         | None => true
         end
  | Operation _ _ => false
  end.

(** Operator, atom, operator, atom, ... with every operator at the binding
    powers [(l_bp, r_bp)]. *)
Fixpoint level_chain (l_bp r_bp : Z) (q : list Token) : bool :=
  match q with
  | [] => true
  | o :: a :: q' =>
      has_type OP o
      && match Parser.lookup (value o) Parser.table with
         | Some (l, r) => (l =? l_bp)%Z && (r =? r_bp)%Z
         | None => false
         end
      && has_type ATOM a && level_chain l_bp r_bp q'
  | _ => false
  end.

(** The tree that groups a chain to the left, from the operand [lhs]. *)
Fixpoint fold_chain (lhs : Expression) (q : list Token) : Expression :=
  match q with
  | o :: a :: q' => fold_chain (Operation o [Some lhs; Some (Atom a)]) q'
  | _ => lhs
  end.

(** The characters of [s] that satisfy [p], in order. *)
Fixpoint keep (p : ascii -> bool) (s : string) : string :=
  match s with
  | EmptyString => EmptyString
  | String c r => if p c then String c (keep p r) else keep p r
  end.

(** The characters some alternative of the scanning pattern matches. *)
Definition scanned (c : ascii) : bool :=
  Re.digit c || Re.word_start c || Re.punct c.

(** The left and the right binding power of an operator token, [0] for a
    text that is not in the table. *)
Definition lbp (t : Token) : Z :=
  match Parser.lookup (value t) Parser.table with
  | Some (l_bp, _) => l_bp
  | None => 0%Z
  end.

Definition rbp (t : Token) : Z :=
  match Parser.lookup (value t) Parser.table with
  | Some (_, r_bp) => r_bp
  | None => 0%Z
  end.

(** The operator at the root of a tree. *)
Definition root (e : Expression) : option Token :=
  match e with
  | Atom _ => None
  | Operation op _ => Some op
  end.

(** Every operator at the root of [e] binds at least as tightly as [bp]
    on its left. *)
Definition root_from (bp : Z) (e : Expression) : bool :=
  match root e with
  | Some o => (bp <=? lbp o)%Z
  | None => true
  end.

(** The grouping of precedence climbing, at every operation [op] of the
    tree: a second operand that is an operation has a root that binds at
    least as tightly on its left as [op] on its right; a first operand that
    is an operation with a second operand of its own has a root that binds
    more tightly on its right than [op] on its left. *)
Fixpoint climbing (e : Expression) : bool :=
  match e with
  | Atom _ => true
  | Operation op [Some l; r] =>
      climbing l
      && match l with
         | Operation o1 [_; Some _] => (lbp op <? rbp o1)%Z
         | _ => true
         end
      && match r with
         | Some x => climbing x && root_from (rbp op) x
         | None => true
         end
  | Operation _ _ => true
  end.

(** What the loop knows of the operand [lhs] it holds in front of the
    tokens [q]: an operator at the head of [q] was too weak for the call
    that parsed the second operand of [lhs]. *)
Definition left_ready (lhs : Expression) (q : list Token) : Prop :=
  match lhs with
  | Operation o1 [_; Some _] =>
      forall t r, q = t :: r -> type t = OP -> (lbp t < rbp o1)%Z
  | _ => True
  end.

(** A match is a run of digits, a run of letters and underscores, or one
    character of the class of the punctuation. *)
Inductive piece : string -> Prop :=
| piece_digits c r :
    Re.digit c = true -> piece (String c (fst (Re.span Re.digit r)))
| piece_word c r :
    Re.word_start c = true -> piece (String c (fst (Re.span Re.word_start r)))
| piece_punct c :
    Re.punct c = true -> piece (String c "").

(** The grouping of precedence climbing in a tree without [None]: every
    operation has two trees as operands; a second operand that is an
    operation has a root that binds at least as tightly on its left as the
    operation on its right; a first operand that is an operation has a root
    that binds more tightly on its right than the operation on its left. *)
Fixpoint grouped (e : Expression) : bool :=
  match e with
  | Atom _ => true
  | Operation op [Some l; Some r] =>
      grouped l && grouped r
      && match root l with
         | Some o1 => (lbp op <? rbp o1)%Z
         | None => true
         end
      && root_from (rbp op) r
  | Operation _ _ => false
  end.

(** The last token in reading order has type [EOF]. *)
Definition eof_last (q : list Token) : Prop :=
  exists q0 t, q = q0 ++ [t] /\ type t = EOF.

(** The exceptions a call on the tokens [q] can raise: the two
    [SyntaxError]s of [parse_expression], the two [IndexError]s of [peek]
    and [next], and the [KeyError] of an operator token of [q] without
    binding power. *)
Definition raised_on (q : list Token) (e : PyExc) : Prop :=
  e = SyntaxError "Operation cannot be the first symbol in an expression"
  \/ e = SyntaxError "Expect an operation, not an atom"
  \/ e = IndexError "list index out of range"
  \/ e = IndexError "pop from empty list"
  \/ exists t, In t q /\ type t = OP
               /\ Parser.lookup (value t) Parser.table = None
               /\ e = KeyError (value t).

(** The characters of a list of strings, in order: [''.join]. *)
Definition join (l : list string) : string :=
  fold_right String.append EmptyString l.

(** A non-empty string of characters that satisfy [p]. *)
Definition run (p : ascii -> bool) (m : string) : bool :=
  match m with
  | EmptyString => false
  | String _ _ => forall_chars p m
  end.

(** The returns of [parse_expression] and of its loop, as derivations over
    the tokens in reading order: [returns_expression min_bp q v q'] when the
    call on [q] returns [v] and leaves [q'], [returns_loop min_bp lhs q v q']
    for the loop entered with [lhs]. *)
Inductive returns_expression
  : Z -> list Token -> option Expression -> list Token -> Prop :=
| ret_eof min_bp t q :
    type t = EOF -> returns_expression min_bp (t :: q) None q
| ret_atom min_bp t q v q' :
    type t = ATOM -> returns_loop min_bp (Atom t) q v q' ->
    returns_expression min_bp (t :: q) v q'
with returns_loop
  : Z -> Expression -> list Token -> option Expression -> list Token
    -> Prop :=
| loop_eof min_bp lhs t q :
    type t = EOF -> returns_loop min_bp lhs (t :: q) (Some lhs) (t :: q)
| loop_stop min_bp lhs t q l_bp r_bp :
    type t = OP -> Parser.infix_binding_power t = inr (l_bp, r_bp) ->
    (l_bp <? min_bp)%Z = true ->
    returns_loop min_bp lhs (t :: q) (Some lhs) (t :: q)
| loop_step min_bp lhs t q l_bp r_bp rhs q1 v q2 :
    type t = OP -> Parser.infix_binding_power t = inr (l_bp, r_bp) ->
    (l_bp <? min_bp)%Z = false ->
    returns_expression r_bp q rhs q1 ->
    returns_loop min_bp (Operation t [Some lhs; rhs]) q1 v q2 ->
    returns_loop min_bp lhs (t :: q) v q2.

Scheme returns_expression_mut := Minimality for returns_expression Sort Prop
  with returns_loop_mut := Minimality for returns_loop Sort Prop.

Combined Scheme returns_mutind
  from returns_expression_mut, returns_loop_mut.

End Tree.


(** * Properties of the scanner *)

Module ReFacts.
Import Re.

Ltac ascii_cases c := destruct c as [[] [] [] [] [] [] [] []].

Lemma span_app (p : ascii -> bool) (s : string) :
  s = fst (span p s) ++ snd (span p s).
Proof.
  induction s as [|c r IH]; simpl; [reflexivity|].
  destruct (p c); [|reflexivity].
  destruct (span p r) as [m r']; simpl in *. now rewrite <- IH.
Qed.

Lemma span_length (p : ascii -> bool) (s : string) :
  String.length s
  = String.length (fst (span p s)) + String.length (snd (span p s)).
Proof.
  induction s as [|c r IH]; simpl; [reflexivity|].
  destruct (p c); [|reflexivity].
  destruct (span p r) as [m r']; simpl in *. now rewrite IH.
Qed.

Lemma span_head (p : ascii -> bool) (c : ascii) (r : string) :
  p c = true ->
  span p (String c r) = (String c (fst (span p r)), snd (span p r)).
Proof. intros H; simpl; rewrite H; now destruct (span p r). Qed.

Lemma span_stop (p : ascii -> bool) (c : ascii) (r : string) :
  p c = false -> span p (String c r) = ("", String c r).
Proof. intros H; simpl; now rewrite H. Qed.

Lemma match_at_shorter (s m rest : string) :
  match_at s = Some (m, rest) -> String.length rest < String.length s.
Proof.
  destruct s as [|c r]; [discriminate|]. unfold match_at.
  destruct (digit c) eqn:Hd.
  - rewrite (span_head _ _ _ Hd). intros [= <- <-].
    pose proof (span_length digit r). simpl. lia.
  - destruct (word_start c) eqn:Hw.
    + rewrite (span_head _ _ _ Hw). intros [= <- <-].
      pose proof (span_length word_start r). simpl. lia.
    + destruct (punct c); [|discriminate]. intros [= <- <-]. simpl. lia.
Qed.

(** The scan does not depend on the bound once it covers the text. *)
Lemma findall_from_stable (n m : nat) (s : string) :
  String.length s <= n -> String.length s <= m ->
  findall_from n s = findall_from m s.
Proof.
  revert m s. induction n as [|n IH]; intros m s Hn Hm.
  - destruct s; [|simpl in Hn; lia]. now destruct m.
  - destruct m as [|m]; [destruct s; [reflexivity|simpl in Hm; lia]|].
    destruct s as [|c r]; [reflexivity|]. simpl in Hn, Hm.
    cbn [findall_from].
    destruct (match_at (String c r)) as [[mm rest]|] eqn:E.
    + apply match_at_shorter in E. simpl in E.
      f_equal. apply IH; lia.
    + apply IH; lia.
Qed.

Lemma findall_nil : findall "" = [].
Proof. reflexivity. Qed.

Lemma findall_cons (c : ascii) (r : string) :
  findall (String c r)
  = match match_at (String c r) with
    | Some (m, rest) => m :: findall rest
    | None => findall r
    end.
Proof.
  unfold findall. cbn [String.length findall_from].
  destruct (match_at (String c r)) as [[mm rest]|] eqn:E.
  - apply match_at_shorter in E. simpl in E.
    f_equal. apply findall_from_stable; lia.
  - reflexivity.
Qed.

(** Induction along the scan. *)
Lemma findall_ind (P : string -> list string -> Prop) :
  P "" [] ->
  (forall c r m rest,
      match_at (String c r) = Some (m, rest) ->
      P rest (findall rest) -> P (String c r) (m :: findall rest)) ->
  (forall c r,
      match_at (String c r) = None ->
      P r (findall r) -> P (String c r) (findall r)) ->
  forall s, P s (findall s).
Proof.
  intros H0 Hm Hs s.
  remember (String.length s) as n eqn:Hn.
  revert s Hn. induction n as [n IH] using lt_wf_ind. intros s Hn.
  destruct s as [|c r]; [exact H0|].
  rewrite findall_cons.
  destruct (match_at (String c r)) as [[m rest]|] eqn:E.
  - apply Hm; [exact E|]. apply match_at_shorter in E.
    apply (IH (String.length rest)); [lia|reflexivity].
  - apply Hs; [exact E|]. apply (IH (String.length r)); [simpl in Hn; lia|reflexivity].
Qed.

End ReFacts.

(** * Properties of the lexer *)

Module LexerFacts.
Import Re ReFacts Lexer Shape.

Lemma match_at_some (c : ascii) (r m rest : string) :
  match_at (String c r) = Some (m, rest) ->
  (digit c = true /\ m = String c (fst (span digit r))
   /\ rest = snd (span digit r))
  \/ (digit c = false /\ word_start c = true
      /\ m = String c (fst (span word_start r))
      /\ rest = snd (span word_start r))
  \/ (digit c = false /\ word_start c = false /\ punct c = true
      /\ m = String c "" /\ rest = r).
Proof.
  unfold match_at. destruct (digit c) eqn:Hd.
  - rewrite (span_head _ _ _ Hd). intros [= <- <-]. auto.
  - destruct (word_start c) eqn:Hw.
    + rewrite (span_head _ _ _ Hw). intros [= <- <-]. auto 6.
    + destruct (punct c) eqn:Hp; [|discriminate]. intros [= <- <-]. auto 8.
Qed.

Lemma match_at_none (c : ascii) (r : string) :
  match_at (String c r) = None ->
  digit c = false /\ word_start c = false /\ punct c = false.
Proof.
  unfold match_at.
  destruct (digit c); [discriminate|].
  destruct (word_start c); [discriminate|].
  destruct (punct c); [discriminate|]. auto.
Qed.

Lemma all_chars_span (p q : ascii -> bool) (s : string) :
  (forall c, p c = true -> q c = true) ->
  all_chars q (fst (span p s)) = true.
Proof.
  intros Hpq. unfold all_chars.
  induction s as [|c r IH]; simpl; [reflexivity|].
  destruct (p c) eqn:Hc; [|reflexivity].
  destruct (span p r) as [m r'] eqn:E. simpl in *.
  rewrite (Hpq _ Hc). destruct (span q m) as [m1 r1]. exact IH.
Qed.

Lemma word_start_char (c : ascii) : word_start c = true -> word_char c = true.
Proof.
  unfold word_start, word_char.
  destruct (in_range "a" "z" c), (in_range "A" "Z" c), (Ascii.eqb c "_");
    simpl; try discriminate; intros _; auto using orb_true_r.
Qed.

Lemma digit_not_operator (c : ascii) (r : string) :
  digit c = true -> in_OPERATORS (String c r) = false.
Proof. ascii_cases c; vm_compute; intros H; try discriminate H; reflexivity. Qed.

(** A run of digits is an atom. *)
Lemma classify_digits (c : ascii) (r : string) :
  digit c = true ->
  classify (String c (fst (span digit r)))
  = mkToken ATOM (String c (fst (span digit r))).
Proof.
  intros Hd. unfold classify, _is_atom.
  rewrite (digit_not_operator _ _ Hd).
  cbn [fullmatch_atom]. rewrite Hd, (all_chars_span digit digit); auto.
Qed.

(** A run of letters and underscores is an operator when it is a word of
    [OPERATORS], an atom otherwise. *)
Lemma classify_word (c : ascii) (r : string) :
  word_start c = true ->
  let m := String c (fst (span word_start r)) in
  classify m = mkToken (if in_OPERATORS m then OP else ATOM) m.
Proof.
  intros Hw m. unfold classify, _is_atom, _is_operator.
  assert (Hf : fullmatch_atom m = true).
  { subst m. cbn [fullmatch_atom].
    rewrite Hw, (all_chars_span word_start word_char r word_start_char).
    apply orb_true_r. }
  rewrite Hf. now destruct (in_OPERATORS m).
Qed.

(** A single character of the class [[+*/()-,]] is an operator, the comma
    apart, which is neither atom nor operator. *)
Lemma classify_punct (c : ascii) :
  punct c = true ->
  classify (String c "")
  = mkToken (if Ascii.eqb c "," then EOF else OP) (String c "").
Proof. ascii_cases c; vm_compute; intros H; try discriminate H; reflexivity. Qed.

(** *** The scan of a text nothing in which matches *)

Lemma isspace_unmatched (c : ascii) :
  isspace c = true ->
  digit c = false /\ word_start c = false /\ punct c = false.
Proof. ascii_cases c; vm_compute; intros H; try discriminate H; auto. Qed.

Lemma findall_blank (s : string) : blank s = true -> findall s = [].
Proof.
  induction s as [|c r IH]; [reflexivity|].
  cbn [blank forall_chars]. intros [Hc Hr]%andb_prop.
  destruct (isspace_unmatched c Hc) as (Hd & Hw & Hp).
  rewrite findall_cons. unfold match_at. rewrite Hd, Hw, Hp. auto.
Qed.

(** *** Counting the tokens tagged [EOF] *)

Lemma count_char_span (p : ascii -> bool) (k : ascii) (s : string) :
  p k = false -> count_char k (snd (span p s)) = count_char k s.
Proof.
  intros Hk. induction s as [|c r IH]; simpl; [reflexivity|].
  destruct (p c) eqn:Hc; [|reflexivity].
  destruct (span p r) as [m r']. simpl in *.
  destruct (Ascii.eqb_spec c k) as [->|_]; [congruence|]. exact IH.
Qed.

Lemma count_type_cons (ty : TokenType) (t : Token) (l : list Token) :
  count_type ty (t :: l)
  = (if has_type ty t then 1 else 0) + count_type ty l.
Proof. unfold count_type. simpl. now destruct (has_type ty t). Qed.

Lemma count_type_app (ty : TokenType) (l1 l2 : list Token) :
  count_type ty (l1 ++ l2) = count_type ty l1 + count_type ty l2.
Proof. unfold count_type. now rewrite filter_app, length_app. Qed.

(** The scanned tokens tagged [EOF] are the commas of the text. *)
Lemma scan_count_EOF (s : string) :
  count_type EOF (scan s) = count_char "," s.
Proof.
  unfold scan.
  apply (findall_ind
           (fun s l => count_type EOF (map classify l) = count_char "," s)).
  - reflexivity.
  - intros c r m rest E IH. cbn [map]. rewrite count_type_cons, IH.
    destruct (match_at_some _ _ _ _ E)
      as [(Hd & -> & ->)|[(Hd & Hw & -> & ->)|(Hd & Hw & Hp & -> & ->)]].
    + rewrite (classify_digits _ _ Hd). cbn [has_type type TokenType_eqb].
      cbn [count_char]. rewrite count_char_span by reflexivity.
      destruct (Ascii.eqb_spec c ",") as [->|_]; [discriminate Hd|reflexivity].
    + rewrite (classify_word _ _ Hw).
      cbn [count_char]. rewrite count_char_span by reflexivity.
      destruct (Ascii.eqb_spec c ",") as [->|_]; [discriminate Hw|].
      now destruct (in_OPERATORS _).
    + rewrite (classify_punct _ Hp). cbn [count_char].
      now destruct (Ascii.eqb c ",").
  - intros c r E IH. rewrite IH. cbn [count_char].
    destruct (match_at_none _ _ E) as (_ & _ & Hp).
    destruct (Ascii.eqb_spec c ",") as [->|_]; [discriminate Hp|reflexivity].
Qed.

(** *** Scanning a text in two parts *)

Lemma last_char_cons (c d : ascii) (r : string) :
  last_char (String c (String d r)) = last_char (String d r).
Proof. reflexivity. Qed.

Lemma last_char_app (a b : string) :
  b <> "" -> last_char (a ++ b) = last_char b.
Proof.
  intros Hb. induction a as [|c a IH]; [reflexivity|].
  simpl. rewrite IH. destruct (a ++ b) eqn:E; [|reflexivity].
  destruct a; simpl in E; [congruence|discriminate].
Qed.

Lemma glued_nil_l (s : string) : glued "" s = false.
Proof. reflexivity. Qed.

Lemma glued_suffix (a b s : string) :
  glued (a ++ b) s = false -> glued b s = false.
Proof.
  destruct b as [|c b]; [reflexivity|].
  unfold glued. now rewrite last_char_app.
Qed.

Lemma span_seam (p : ascii -> bool) (c : ascii) (r s2 : string) :
  (forall a b, last_char (String c r) = Some a -> first_char s2 = Some b ->
               p a = true -> p b = false) ->
  span p (String c r ++ s2)
  = (fst (span p (String c r)), snd (span p (String c r)) ++ s2).
Proof.
  revert c. induction r as [|d r IH]; intros c Hg.
  - simpl. destruct (p c) eqn:Hc; [|reflexivity].
    destruct s2 as [|b s2]; [reflexivity|].
    simpl. now rewrite (Hg c b eq_refl eq_refl Hc).
  - change (String c (String d r) ++ s2) with (String c (String d r ++ s2)).
    destruct (p c) eqn:Hc.
    + rewrite !(span_head _ _ _ Hc).
      rewrite (IH d)
        by (intros a b; rewrite <- last_char_cons with (c := c); apply Hg).
      reflexivity.
    + rewrite !(span_stop _ _ _ Hc). reflexivity.
Qed.

Lemma glued_digit (s1 s2 : string) (a b : ascii) :
  glued s1 s2 = false -> last_char s1 = Some a -> first_char s2 = Some b ->
  digit a = true -> digit b = false.
Proof.
  unfold glued. intros H E1 E2 Ha. rewrite E1, E2, Ha in H.
  now destruct (digit b).
Qed.

Lemma glued_word (s1 s2 : string) (a b : ascii) :
  glued s1 s2 = false -> last_char s1 = Some a -> first_char s2 = Some b ->
  word_start a = true -> word_start b = false.
Proof.
  unfold glued. intros H E1 E2 Ha. rewrite E1, E2, Ha in H.
  destruct (word_start b); [|reflexivity].
  now rewrite andb_true_r, orb_true_r in H.
Qed.

Lemma match_at_seam (c : ascii) (r s2 : string) :
  glued (String c r) s2 = false ->
  match_at (String c r ++ s2)
  = match match_at (String c r) with
    | Some (m, rest) => Some (m, rest ++ s2)
    | None => None
    end.
Proof.
  intros Hg. change (String c r ++ s2) with (String c (r ++ s2)).
  unfold match_at. destruct (digit c) eqn:Hd.
  - change (String c (r ++ s2)) with (String c r ++ s2).
    rewrite span_seam by (intros a b; apply (glued_digit _ _ _ _ Hg)).
    now destruct (span digit (String c r)).
  - destruct (word_start c) eqn:Hw.
    + change (String c (r ++ s2)) with (String c r ++ s2).
      rewrite span_seam by (intros a b; apply (glued_word _ _ _ _ Hg)).
      now destruct (span word_start (String c r)).
    + now destruct (punct c).
Qed.

Lemma match_at_app (s m rest : string) :
  match_at s = Some (m, rest) -> s = m ++ rest.
Proof.
  destruct s as [|c r]; [discriminate|]. intros E.
  destruct (match_at_some _ _ _ _ E)
    as [(_ & -> & ->)|[(_ & _ & -> & ->)|(_ & _ & _ & -> & ->)]];
    simpl; f_equal; apply span_app || reflexivity.
Qed.

(** Where the seam lies between two matches, the scan of the whole is the
    scan of the parts. *)
Lemma findall_app (s1 s2 : string) :
  glued s1 s2 = false -> findall (s1 ++ s2) = (findall s1 ++ findall s2)%list.
Proof.
  remember (String.length s1) as n eqn:Hn.
  revert s1 Hn. induction n as [n IH] using lt_wf_ind. intros s1 Hn Hg.
  destruct s1 as [|c r]; [reflexivity|].
  change (String c r ++ s2) with (String c (r ++ s2)).
  rewrite !findall_cons.
  change (String c (r ++ s2)) with (String c r ++ s2).
  rewrite (match_at_seam _ _ _ Hg).
  destruct (match_at (String c r)) as [[m rest]|] eqn:E.
  - pose proof (match_at_shorter _ _ _ E) as Hlt.
    pose proof (match_at_app _ _ _ E) as Happ.
    cbn [app]. f_equal.
    apply (IH (String.length rest)); [lia|reflexivity|].
    apply (glued_suffix m). now rewrite <- Happ.
  - apply (IH (String.length r)); [simpl in Hn; lia|reflexivity|].
    apply (glued_suffix (String c "")). exact Hg.
Qed.

Lemma scan_app (s1 s2 : string) :
  glued s1 s2 = false -> scan (s1 ++ s2) = (scan s1 ++ scan s2)%list.
Proof. intros Hg. unfold scan. now rewrite findall_app, map_app. Qed.

Lemma first_char_app (a b : string) :
  a <> "" -> first_char (a ++ b) = first_char a.
Proof. destruct a; [congruence|reflexivity]. Qed.

Lemma glued_app_r (s a b : string) :
  a <> "" -> glued s (a ++ b) = glued s a.
Proof. intros Ha. unfold glued. now rewrite first_char_app. Qed.

(** A part of the text with a seam on either side is scanned on its
    own. *)
Lemma scan_between (s1 op s2 : string) :
  op <> "" -> glued s1 op = false -> glued op s2 = false ->
  scan (s1 ++ op ++ s2) = (scan s1 ++ scan op ++ scan s2)%list.
Proof.
  intros Hop H1 H2.
  rewrite scan_app by now rewrite glued_app_r.
  now rewrite (scan_app op s2).
Qed.

Lemma reading_order_lexicalize (expression : string) :
  reading_order (lexicalize expression)
  = (scan expression ++ [mkToken EOF "EOF"])%list.
Proof. unfold reading_order, lexicalize. apply rev_involutive. Qed.

(** A character that starts no digit run and no word is never glued to
    its neighbours. *)
Lemma glued_single (c : ascii) (s1 s2 : string) :
  digit c = false -> word_start c = false ->
  glued s1 (String c "") = false /\ glued (String c "") s2 = false.
Proof.
  intros Hd Hw. unfold glued. cbn [first_char last_char].
  rewrite Hd, Hw. split.
  - destruct (last_char s1); [|reflexivity].
    now rewrite !andb_false_r.
  - now destruct (first_char s2).
Qed.

(** *** What the scanner never yields *)

Lemma findall_heads (s : string) :
  Forall (fun m => match m with
                   | "" => False
                   | String c _ =>
                       digit c = true \/ word_start c = true
                       \/ punct c = true
                   end) (findall s).
Proof.
  apply (findall_ind (fun _ l => Forall _ l)); auto.
  intros c r m rest E IH. constructor; [|exact IH].
  destruct (match_at_some _ _ _ _ E)
    as [(Hd & -> & _)|[(_ & Hw & -> & _)|(_ & _ & Hp & -> & _)]]; auto.
Qed.

(** No token carries the text [-]: the class [[+*/()-,]] reads [)-,] as
    a range and has no member [-]. *)
Lemma minus_never_scanned (expression : string) (t : Token) :
  In t (lexicalize expression) -> value t <> "-".
Proof.
  unfold lexicalize. rewrite <- in_rev, in_app_iff.
  intros [Hin|[<-|[]]]; [|discriminate].
  unfold scan in Hin. apply in_map_iff in Hin as (m & <- & Hm).
  pose proof (findall_heads expression) as Hall.
  rewrite Forall_forall in Hall. specialize (Hall m Hm).
  assert (Hv : value (classify m) = m).
  { unfold classify. now destruct (_is_atom m), (_is_operator m). }
  rewrite Hv. intros ->. destruct Hall as [H|[H|H]]; discriminate H.
Qed.

End LexerFacts.


(** * The shape of the tokens *)

Module ScanFacts.
Import Re ReFacts Lexer Shape Tree LexerFacts.

(** *** The three kinds of match *)

Lemma forall_chars_span (p q : ascii -> bool) (s : string) :
  (forall c, p c = true -> q c = true) ->
  forall_chars q (fst (span p s)) = true.
Proof.
  intros Hpq. induction s as [|c r IH]; simpl; [reflexivity|].
  destruct (p c) eqn:Hc; [|reflexivity].
  destruct (span p r) as [m r']. simpl in *. now rewrite (Hpq _ Hc).
Qed.

Lemma keep_all (f : ascii -> bool) (s : string) :
  forall_chars f s = true -> keep f s = s.
Proof.
  induction s as [|c r IH]; [reflexivity|]. cbn.
  intros [-> Hr]%andb_prop. now rewrite IH.
Qed.

Lemma keep_app (f : ascii -> bool) (a b : string) :
  keep f (a ++ b) = keep f a ++ keep f b.
Proof.
  induction a as [|c a IH]; [reflexivity|]. cbn.
  destruct (f c); cbn; now rewrite IH.
Qed.

Lemma value_classify (m : string) : value (classify m) = m.
Proof. unfold classify. now destruct (_is_atom m), (_is_operator m). Qed.

Lemma punct_cases (c : ascii) :
  punct c = true ->
  c = "+"%char \/ c = "*"%char \/ c = "/"%char \/ c = "("%char
  \/ c = ")"%char \/ c = ","%char.
Proof.
  ascii_cases c; vm_compute; intros H; try discriminate H; auto 10.
Qed.

Lemma findall_pieces (s : string) : Forall piece (findall s).
Proof.
  apply (findall_ind (fun _ l => Forall piece l)); auto.
  intros c r m rest E IH. constructor; [|exact IH].
  destruct (match_at_some _ _ _ _ E)
    as [(Hd & -> & _)|[(_ & Hw & -> & _)|(_ & _ & Hp & -> & _)]];
    now constructor.
Qed.

Lemma scan_pieces (expression : string) (t : Token) :
  In t (scan expression) -> exists m, piece m /\ t = classify m.
Proof.
  unfold scan. intros (m & <- & Hm)%in_map_iff. exists m. split; [|reflexivity].
  pose proof (findall_pieces expression) as H.
  rewrite Forall_forall in H. now apply H.
Qed.

Lemma in_lexicalize (expression : string) (t : Token) :
  In t (lexicalize expression) <->
  In t (scan expression) \/ t = mkToken EOF "EOF".
Proof.
  unfold lexicalize. rewrite <- in_rev, in_app_iff. cbn. intuition.
Qed.

Lemma word_operator (c : ascii) (r : string) :
  word_start c = true -> in_OPERATORS (String c r) = true ->
  In (String c r) ["and"; "or"; "not"].
Proof.
  intros Hw H. unfold in_OPERATORS in H.
  apply existsb_exists in H as (k & Hk & Heq).
  apply String.eqb_eq in Heq. subst k.
  unfold OPERATORS in Hk. cbn [In] in Hk.
  repeat (destruct Hk as [Hk|Hk];
          [first [injection Hk as <- _; vm_compute in Hw; discriminate Hw
                 |rewrite <- Hk; cbn; tauto]|]).
  destruct Hk.
Qed.

(** *** The token of each kind of match *)

Lemma classify_piece (m : string) :
  piece m ->
  (classify m = mkToken ATOM m
   /\ (run digit m || run word_start m) = true
   /\ in_OPERATORS m = false)
  \/ (classify m = mkToken OP m
      /\ In m ["+"; "*"; "/"; "("; ")"; "and"; "or"; "not"])
  \/ (m = "," /\ classify m = mkToken EOF ",").
Proof.
  intros [c r Hd|c r Hw|c Hp].
  - left. rewrite (classify_digits _ _ Hd), (digit_not_operator _ _ Hd).
    repeat split. cbn [run forall_chars].
    now rewrite Hd, (forall_chars_span digit digit).
  - rewrite (classify_word _ _ Hw).
    destruct (in_OPERATORS _) eqn:Hop.
    + right. left. split; [reflexivity|].
      apply (word_operator _ _ Hw) in Hop. cbn [In] in *. tauto.
    + left. repeat split. cbn [run forall_chars].
      rewrite Hw, (forall_chars_span word_start word_start) by auto.
      apply orb_true_r.
  - rewrite (classify_punct _ Hp).
    destruct (punct_cases _ Hp) as [ -> | [ -> | [ -> | [ -> | [ -> | -> ]]]]];
      cbn; tauto.
Qed.

Lemma operator_values (expression : string) (t : Token) :
  In t (lexicalize expression) -> type t = OP ->
  In (value t) ["+"; "*"; "/"; "("; ")"; "and"; "or"; "not"].
Proof.
  intros [Hin| ->]%in_lexicalize Hty; [|discriminate Hty].
  destruct (scan_pieces _ _ Hin) as (m & Hm & ->).
  destruct (classify_piece m Hm)
    as [(E & _)|[(E & H)|(_ & E)]]; rewrite E in *; try discriminate Hty.
  exact H.
Qed.

(** *** The characters of the tokens *)

Lemma piece_scanned (c : ascii) (r m rest : string) :
  match_at (String c r) = Some (m, rest) -> forall_chars scanned m = true.
Proof.
  intros E.
  destruct (match_at_some _ _ _ _ E)
    as [(Hd & -> & _)|[(_ & Hw & -> & _)|(_ & _ & Hp & -> & _)]];
    cbn [forall_chars]; unfold scanned at 1.
  - rewrite Hd. cbn. apply forall_chars_span.
    intros d Hd'. unfold scanned. now rewrite Hd'.
  - rewrite Hw, orb_true_r. cbn. apply forall_chars_span.
    intros d Hd'. unfold scanned. now rewrite Hd', orb_true_r.
  - now rewrite Hp, !orb_true_r.
Qed.

Lemma findall_join (s : string) : join (findall s) = keep scanned s.
Proof.
  apply (findall_ind (fun s l => join l = keep scanned s)).
  - reflexivity.
  - intros c r m rest E IH.
    rewrite (match_at_app _ _ _ E), keep_app.
    rewrite (keep_all _ _ (piece_scanned _ _ _ _ E)).
    cbn [join fold_right]. f_equal. exact IH.
  - intros c r E IH. rewrite IH. cbn [keep].
    destruct (match_at_none _ _ E) as (Hd & Hw & Hp).
    unfold scanned. now rewrite Hd, Hw, Hp.
Qed.

(** *** Blank text between two parts *)

Lemma blank_first (w : string) (b : ascii) :
  blank w = true -> first_char w = Some b -> isspace b = true.
Proof.
  destruct w as [|c w]; [discriminate|]. cbn.
  now intros [Hc _]%andb_prop [= <-].
Qed.

Lemma blank_last (w : string) (a : ascii) :
  blank w = true -> last_char w = Some a -> isspace a = true.
Proof.
  induction w as [|c w IH]; [discriminate|].
  cbn [blank forall_chars]. intros [Hc Hw]%andb_prop.
  destruct w as [|d w]; [now intros [= <-]|].
  rewrite last_char_cons. now apply IH.
Qed.

Lemma glued_blank_r (s w : string) : blank w = true -> glued s w = false.
Proof.
  intros Hw. unfold glued.
  destruct (last_char s) as [a|]; [|reflexivity].
  destruct (first_char w) as [b|] eqn:Hb; [|reflexivity].
  destruct (isspace_unmatched _ (blank_first _ _ Hw Hb)) as (-> & -> & _).
  now rewrite !andb_false_r.
Qed.

Lemma glued_blank_l (w s : string) : blank w = true -> glued w s = false.
Proof.
  intros Hw. unfold glued.
  destruct (last_char w) as [a|] eqn:Ha; [|reflexivity].
  destruct (first_char s) as [b|]; [|reflexivity].
  now destruct (isspace_unmatched _ (blank_last _ _ Hw Ha)) as (-> & -> & _).
Qed.

End ScanFacts.

(** * Properties of the parser *)

Module ParserFacts.
Import Lexer Parser Shape.
#[local] Open Scope list_scope.

Ltac solve_length :=
  repeat rewrite ?length_rev, ?length_app; cbn [length] in *; lia.

(** *** The token stack, seen in reading order *)

Lemma next_nil : next [] = inl (IndexError "pop from empty list").
Proof. reflexivity. Qed.

Lemma peek_nil : peek [] = inl (IndexError "list index out of range").
Proof. reflexivity. Qed.

Lemma next_rev (t : Token) (q : list Token) :
  next (rev (t :: q)) = inr (t, rev q).
Proof. unfold next. now rewrite rev_involutive. Qed.

Lemma peek_rev (t : Token) (q : list Token) :
  peek (rev (t :: q)) = inr t.
Proof. unfold peek. now rewrite rev_involutive. Qed.

(** *** One step of each function *)

Lemma parse_expression_S (fuel : nat) (tokens : list Token) (min_bp : Z) :
  parse_expression (S fuel) tokens min_bp
  = match next tokens with
    | inl e => Raise e
    | inr (token, tokens1) =>
        match type token with
        | ATOM => parse_loop fuel min_bp (Atom token) tokens1
        | OP =>
            Raise (SyntaxError
              "Operation cannot be the first symbol in an expression")
        | EOF => Return (None, tokens1)
        end
    end.
Proof. reflexivity. Qed.

Lemma parse_loop_S (fuel : nat) (min_bp : Z) (lhs : Expression)
  (tokens : list Token) :
  parse_loop (S fuel) min_bp lhs tokens
  = match peek tokens with
    | inl e => Raise e
    | inr next_token =>
        match type next_token with
        | EOF => Return (Some lhs, tokens)
        | ATOM => Raise (SyntaxError "Expect an operation, not an atom")
        | OP =>
            match infix_binding_power next_token with
            | inl e => Raise e
            | inr (l_bp, r_bp) =>
                if (l_bp <? min_bp)%Z then Return (Some lhs, tokens)
                else
                  match next tokens with
                  | inl e => Raise e
                  | inr (_, tokens1) =>
                      match parse_expression fuel tokens1 r_bp with
                      | Return (rhs, tokens2) =>
                          parse_loop fuel min_bp
                            (Operation next_token [Some lhs; rhs]) tokens2
                      | Raise e => Raise e
                      | OutOfFuel => OutOfFuel
                      end
                  end
            end
        end
    end.
Proof. reflexivity. Qed.

Lemma parse_expression_nil (fuel : nat) (min_bp : Z) :
  parse_expression (S fuel) (rev []) min_bp
  = Raise (IndexError "pop from empty list").
Proof. reflexivity. Qed.

Lemma parse_loop_nil (fuel : nat) (min_bp : Z) (lhs : Expression) :
  parse_loop (S fuel) min_bp lhs (rev [])
  = Raise (IndexError "list index out of range").
Proof. reflexivity. Qed.

Lemma parse_expression_cons (fuel : nat) (t : Token) (q : list Token)
  (min_bp : Z) :
  parse_expression (S fuel) (rev (t :: q)) min_bp
  = match type t with
    | ATOM => parse_loop fuel min_bp (Atom t) (rev q)
    | OP =>
        Raise (SyntaxError
          "Operation cannot be the first symbol in an expression")
    | EOF => Return (None, rev q)
    end.
Proof. now rewrite parse_expression_S, next_rev. Qed.

Lemma parse_loop_cons (fuel : nat) (min_bp : Z) (lhs : Expression)
  (t : Token) (q : list Token) :
  parse_loop (S fuel) min_bp lhs (rev (t :: q))
  = match type t with
    | EOF => Return (Some lhs, rev (t :: q))
    | ATOM => Raise (SyntaxError "Expect an operation, not an atom")
    | OP =>
        match infix_binding_power t with
        | inl e => Raise e
        | inr (l_bp, r_bp) =>
            if (l_bp <? min_bp)%Z then Return (Some lhs, rev (t :: q))
            else
              match parse_expression fuel (rev q) r_bp with
              | Return (rhs, tokens2) =>
                  parse_loop fuel min_bp (Operation t [Some lhs; rhs])
                    tokens2
              | Raise e => Raise e
              | OutOfFuel => OutOfFuel
              end
        end
    end.
Proof. now rewrite parse_loop_S, peek_rev, next_rev. Qed.

(** *** More fuel does not change a result *)

Lemma fuel_step (fuel : nat) :
  (forall tokens min_bp,
      parse_expression fuel tokens min_bp <> OutOfFuel ->
      parse_expression (S fuel) tokens min_bp
      = parse_expression fuel tokens min_bp)
  /\ (forall min_bp lhs tokens,
         parse_loop fuel min_bp lhs tokens <> OutOfFuel ->
         parse_loop (S fuel) min_bp lhs tokens
         = parse_loop fuel min_bp lhs tokens).
Proof.
  induction fuel as [|fuel [IHe IHl]].
  - split; intros; exfalso; auto.
  - split.
    + intros tokens min_bp. rewrite (parse_expression_S (S fuel)).
      rewrite (parse_expression_S fuel).
      destruct (next tokens) as [e|[token tokens1]]; [reflexivity|].
      destruct (type token); auto.
    + intros min_bp lhs tokens. rewrite (parse_loop_S (S fuel)).
      rewrite (parse_loop_S fuel).
      destruct (peek tokens) as [e|next_token]; [reflexivity|].
      destruct (type next_token); try reflexivity.
      destruct (infix_binding_power next_token) as [e|[l_bp r_bp]];
        [reflexivity|].
      destruct (l_bp <? min_bp)%Z; [reflexivity|].
      destruct (next tokens) as [e|[_ tokens1]]; [reflexivity|].
      destruct (parse_expression fuel tokens1 r_bp) as [[rhs tokens2]| |]
        eqn:E.
      * rewrite IHe, E by (rewrite E; discriminate). apply IHl.
      * rewrite IHe, E by (rewrite E; discriminate). reflexivity.
      * intros H; exfalso; auto.
Qed.

Lemma fuel_mono_expression (fuel fuel' : nat) (tokens : list Token)
  (min_bp : Z) :
  fuel <= fuel' ->
  parse_expression fuel tokens min_bp <> OutOfFuel ->
  parse_expression fuel' tokens min_bp = parse_expression fuel tokens min_bp.
Proof.
  intros Hle Hne. induction Hle as [|k Hle IH]; [reflexivity|].
  rewrite <- IH. apply (proj1 (fuel_step k)). now rewrite IH.
Qed.

Lemma fuel_mono_loop (fuel fuel' : nat) (min_bp : Z) (lhs : Expression)
  (tokens : list Token) :
  fuel <= fuel' ->
  parse_loop fuel min_bp lhs tokens <> OutOfFuel ->
  parse_loop fuel' min_bp lhs tokens = parse_loop fuel min_bp lhs tokens.
Proof.
  intros Hle Hne. induction Hle as [|k Hle IH]; [reflexivity|].
  rewrite <- IH. apply (proj2 (fuel_step k)). now rewrite IH.
Qed.

(** *** Every call and every turn of the loop consumes tokens *)

Lemma consumes (fuel : nat) :
  (forall q min_bp,
      length q < fuel ->
      parse_expression fuel (rev q) min_bp <> OutOfFuel
      /\ forall v rest,
          parse_expression fuel (rev q) min_bp = Return (v, rest) ->
          length rest < length q)
  /\ (forall q min_bp lhs,
         length q < fuel ->
         parse_loop fuel min_bp lhs (rev q) <> OutOfFuel
         /\ forall v rest,
             parse_loop fuel min_bp lhs (rev q) = Return (v, rest) ->
             length rest <= length q).
Proof.
  induction fuel as [|fuel [IHe IHl]]; [split; intros; lia|].
  split.
  - intros [|t q] min_bp Hlen.
    + rewrite parse_expression_nil. split; [discriminate|intros; discriminate].
    + rewrite parse_expression_cons. cbn [length] in *.
      destruct (type t).
      * destruct (IHl q min_bp (Atom t)) as [Hne Hret]; [lia|].
        split; [exact Hne|]. intros v rest E. apply Hret in E. lia.
      * split; [discriminate|intros; discriminate].
      * split; [discriminate|]. intros v rest [= <- <-]. solve_length.
  - intros [|t q] min_bp lhs Hlen.
    + rewrite parse_loop_nil. split; [discriminate|intros; discriminate].
    + rewrite parse_loop_cons. cbn [length] in Hlen.
      destruct (type t).
      * split; [discriminate|intros; discriminate].
      * destruct (infix_binding_power t) as [e|[l_bp r_bp]];
          [split; [discriminate|intros; discriminate]|].
        destruct (l_bp <? min_bp)%Z.
        { split; [discriminate|]. intros v rest [= <- <-]. solve_length. }
        destruct (IHe q r_bp) as [Hne Hret]; [lia|].
        destruct (parse_expression fuel (rev q) r_bp)
          as [[rhs tokens2]| |]; [|split; [discriminate|intros; discriminate]|
                                   now exfalso].
        specialize (Hret rhs tokens2 eq_refl).
        rewrite <- (rev_involutive tokens2).
        destruct (IHl (rev tokens2) min_bp (Operation t [Some lhs; rhs]))
          as [Hne2 Hret2]; [rewrite length_rev; lia|].
        split; [exact Hne2|]. intros v rest E. apply Hret2 in E.
        rewrite length_rev in E. cbn [length]. lia.
      * split; [discriminate|]. intros v rest [= <- <-]. solve_length.
Qed.

(** *** Binding powers *)

Lemma has_type_eq (ty : TokenType) (t : Token) :
  has_type ty t = true -> type t = ty.
Proof. unfold has_type. now destruct (type t), ty. Qed.

Lemma table_lower_bound (k : string) (l_bp r_bp : Z) :
  lookup k table = Some (l_bp, r_bp) -> (10 <= l_bp)%Z.
Proof.
  unfold table. cbn [lookup].
  repeat (destruct (String.eqb k _); [intros [= <- <-]; lia|]).
  discriminate.
Qed.

Lemma stops_low (min_bp : Z) (q : list Token) :
  (min_bp <= 10)%Z -> stops min_bp q = false.
Proof.
  intros Hbp. destruct q as [|t q]; [reflexivity|]. unfold stops.
  destruct (lookup (value t) table) as [[l_bp r_bp]|] eqn:E;
    [|apply andb_false_r].
  apply table_lower_bound in E.
  replace (l_bp <? min_bp)%Z with false by (symmetry; apply Z.ltb_ge; lia).
  apply andb_false_r.
Qed.

Lemma supported_inv (t : Token) :
  supported t = true ->
  type t = OP
  /\ exists l_bp r_bp,
      lookup (value t) table = Some (l_bp, r_bp)
      /\ infix_binding_power t = inr (l_bp, r_bp).
Proof.
  unfold supported, infix_binding_power. intros [Ht Hl]%andb_prop.
  split; [now apply has_type_eq|].
  destruct (lookup (value t) table) as [[l_bp r_bp]|]; [eauto|discriminate].
Qed.

Lemma stops_head (min_bp l_bp r_bp : Z) (t : Token) (q : list Token) :
  type t = OP -> infix_binding_power t = inr (l_bp, r_bp) ->
  (l_bp <? min_bp)%Z = true -> stops min_bp (t :: q) = true.
Proof.
  unfold stops, infix_binding_power, has_type. intros -> H Hlt.
  destruct (lookup (value t) table) as [[l r]|]; [|discriminate].
  injection H as -> ->. now rewrite Hlt.
Qed.

(** *** The parser on a well-formed chain

    [tail] is what follows the chain, and [E] the exception the loop
    raises when it meets [tail] and does not stop before it. *)

Section Chain.
Variable tail : list Token.
Variable E : PyExc.
Hypothesis Htail : forall fuel min_bp lhs,
    length tail < fuel ->
    parse_loop fuel min_bp lhs (rev tail) = Raise E
    \/ (parse_loop fuel min_bp lhs (rev tail) = Return (Some lhs, rev tail)
        /\ stops min_bp tail = true).

Lemma chain_run (fuel : nat) :
  (forall a q min_bp,
      has_type ATOM a = true -> chain q = true ->
      length (a :: q ++ tail) < fuel ->
      chain_outcome tail E min_bp q
        (parse_expression fuel (rev (a :: q ++ tail)) min_bp))
  /\ (forall q min_bp lhs,
         chain q = true -> length (q ++ tail) < fuel ->
         chain_outcome tail E min_bp q
           (parse_loop fuel min_bp lhs (rev (q ++ tail)))).
Proof.
  induction fuel as [|fuel [IHe IHl]]; [split; intros; lia|].
  split.
  - intros a q min_bp Ha Hq Hlen.
    rewrite parse_expression_cons, (has_type_eq _ _ Ha).
    apply IHl; [exact Hq|cbn [length] in Hlen; lia].
  - intros [|o [|a q]] min_bp lhs Hq Hlen.
    + cbn [app] in *.
      destruct (Htail (S fuel) min_bp lhs Hlen) as [->|[-> Hs]];
        [now left|].
      right. exists (Some lhs), []. auto.
    + discriminate Hq.
    + cbn [chain] in Hq.
      apply andb_prop in Hq as [[Ho Ha]%andb_prop Hq].
      destruct (supported_inv _ Ho) as (Hty & l_bp & r_bp & _ & Hbp).
      change ((o :: a :: q) ++ tail) with (o :: a :: q ++ tail) in *.
      rewrite parse_loop_cons, Hty, Hbp.
      destruct (l_bp <? min_bp)%Z eqn:Hlt.
      * right. exists (Some lhs), (o :: a :: q).
        split; [cbn [chain]; now rewrite Ho, Ha, Hq|].
        split; [lia|]. split; [|reflexivity].
        apply (stops_head _ _ _ _ _ Hty Hbp Hlt).
      * cbn [length] in Hlen.
        destruct (IHe a q r_bp Ha Hq) as [->|(v & q1 & Hq1 & Hl1 & _ & ->)];
          [cbn [length]; lia|now left|].
        destruct (IHl q1 min_bp (Operation o [Some lhs; v]) Hq1)
          as [->|(v2 & q2 & Hq2 & Hl2 & Hs2 & ->)];
          [rewrite length_app in *; lia|now left|].
        right. exists v2, q2. repeat split; auto. cbn [length]. lia.
Qed.

(** At a minimum binding power no operator is below, the call raises
    [E]. *)
Lemma chain_top (fuel : nat) (p : list Token) (min_bp : Z) :
  (min_bp <= 10)%Z -> operand_chain p = true ->
  length (p ++ tail) < fuel ->
  parse_expression fuel (rev (p ++ tail)) min_bp = Raise E.
Proof.
  intros Hbp Hp Hlen. destruct p as [|a q]; [discriminate|].
  cbn [operand_chain] in Hp. apply andb_prop in Hp as [Ha Hq].
  destruct (proj1 (chain_run fuel) a q min_bp Ha Hq Hlen)
    as [H|(v & q' & _ & _ & Hs & _)]; [exact H|].
  now rewrite stops_low in Hs.
Qed.

End Chain.

(** An operator without binding power after a chain: [KeyError]. *)
Lemma chain_unsupported (fuel : nat) (p rest : list Token) (u : Token) :
  operand_chain p = true -> type u = OP ->
  lookup (value u) table = None ->
  length (p ++ u :: rest) < fuel ->
  parse_expression fuel (rev (p ++ u :: rest)) 0
  = Raise (KeyError (value u)).
Proof.
  intros Hp Hu Hl Hlen. apply chain_top; auto; [|lia].
  intros [|f] min_bp lhs Hf; [lia|]. left.
  rewrite parse_loop_cons, Hu. unfold infix_binding_power. now rewrite Hl.
Qed.

(** A supported operator and the final [EOF] after a chain: the operand
    parsed for the operator is [None], and the next [peek] finds the list
    empty. *)
Lemma chain_dangling (fuel : nat) (p : list Token) (o eof : Token) :
  operand_chain p = true -> supported o = true -> type eof = EOF ->
  length (p ++ [o; eof]) < fuel ->
  parse_expression fuel (rev (p ++ [o; eof])) 0
  = Raise (IndexError "list index out of range").
Proof.
  intros Hp Ho He Hlen. apply chain_top; auto; [|lia].
  intros [|[|[|f]]] min_bp lhs Hf; cbn [length] in Hf; try lia.
  destruct (supported_inv _ Ho) as (Hty & l_bp & r_bp & _ & Hbp).
  rewrite parse_loop_cons, Hty, Hbp.
  destruct (l_bp <? min_bp)%Z eqn:Hlt.
  - right. split; [reflexivity|]. apply (stops_head _ _ _ _ _ Hty Hbp Hlt).
  - left. now rewrite parse_expression_cons, He, parse_loop_nil.
Qed.

(** *** A dangling operator after any tokens but [EOF] ones *)

Lemma dangling_return (o eof : Token) (fuel : nat) :
  type o = OP -> type eof = EOF ->
  (forall p min_bp v st,
      eof_free p = true ->
      parse_expression fuel (rev (p ++ [o; eof])) min_bp = Return (v, st) ->
      exists p', st = rev (p' ++ [o; eof]) /\ eof_free p' = true
                 /\ stops min_bp (p' ++ [o; eof]) = true)
  /\ (forall p min_bp lhs v st,
         eof_free p = true ->
         parse_loop fuel min_bp lhs (rev (p ++ [o; eof])) = Return (v, st) ->
         exists p', st = rev (p' ++ [o; eof]) /\ eof_free p' = true
                    /\ stops min_bp (p' ++ [o; eof]) = true).
Proof.
  intros Ho He.
  induction fuel as [|fuel [IHe IHl]]; [split; intros; discriminate|].
  split.
  - intros [|t p] min_bp v st Hp.
    + cbn [app]. rewrite parse_expression_cons, Ho. discriminate.
    + change ((t :: p) ++ [o; eof]) with (t :: p ++ [o; eof]).
      rewrite parse_expression_cons.
      cbn [eof_free forallb] in Hp. apply andb_prop in Hp as [Ht Hp].
      destruct (type t) eqn:Hty.
      * apply IHl, Hp.
      * discriminate.
      * unfold has_type in Ht. rewrite Hty in Ht. discriminate Ht.
  - intros [|t p] min_bp lhs v st Hp.
    + cbn [app]. rewrite parse_loop_cons, Ho.
      destruct (infix_binding_power o) as [e|[l_bp r_bp]] eqn:Hbp;
        [discriminate|].
      destruct (l_bp <? min_bp)%Z eqn:Hlt.
      * intros [= <- <-]. exists []. repeat split; auto.
        apply (stops_head _ _ _ _ _ Ho Hbp Hlt).
      * destruct fuel as [|fuel']; [discriminate|].
        rewrite parse_expression_cons, He, parse_loop_nil. discriminate.
    + change ((t :: p) ++ [o; eof]) with (t :: p ++ [o; eof]).
      rewrite parse_loop_cons.
      cbn [eof_free forallb] in Hp. apply andb_prop in Hp as [Ht Hp].
      destruct (type t) eqn:Hty.
      * discriminate.
      * destruct (infix_binding_power t) as [e|[l_bp r_bp]] eqn:Hbp;
          [discriminate|].
        destruct (l_bp <? min_bp)%Z eqn:Hlt.
        { intros [= <- <-]. exists (t :: p). repeat split.
          - cbn [eof_free forallb]. now rewrite Ht.
          - apply (stops_head _ _ _ _ _ Hty Hbp Hlt). }
        destruct (parse_expression fuel (rev (p ++ [o; eof])) r_bp)
          as [[rhs tokens2]| |] eqn:E1; try discriminate.
        destruct (IHe p r_bp rhs tokens2 Hp E1) as (p1 & -> & Hp1 & _).
        apply IHl, Hp1.
      * unfold has_type in Ht. rewrite Hty in Ht. discriminate Ht.
Qed.

Lemma dangling_raises (fuel : nat) (p : list Token) (o eof : Token) :
  eof_free p = true -> type o = OP -> type eof = EOF ->
  length (p ++ [o; eof]) < fuel ->
  exists e, parse_expression fuel (rev (p ++ [o; eof])) 0 = Raise e.
Proof.
  intros Hp Ho He Hlen.
  destruct (proj1 (consumes fuel) (p ++ [o; eof]) 0%Z Hlen) as [Hne _].
  destruct (parse_expression fuel (rev (p ++ [o; eof])) 0)
    as [[v st]|e|] eqn:E1; [|eauto|now exfalso].
  destruct (proj1 (dangling_return o eof fuel Ho He) p 0%Z v st Hp E1)
    as (p' & _ & _ & Hs).
  now rewrite stops_low in Hs.
Qed.

End ParserFacts.


(** * Returns of the parser as derivations *)

Module TreeFacts.
Import Lexer Parser Shape Tree ParserFacts.
#[local] Open Scope list_scope.

(** *** The derivations are the returns of the code *)

(** Read an equation [Return (a, b) = Return (v, rest)] without unfolding
    the list it mentions. *)
Ltac returned H :=
  match type of H with
  | Return (?a, ?b) = Return (?v, ?rest) =>
      assert (v = a) by congruence; assert (rest = b) by congruence;
      subst v rest; clear H
  end.

Lemma returns_sound (fuel : nat) :
  (forall q min_bp v rest,
      parse_expression fuel (rev q) min_bp = Return (v, rest) ->
      returns_expression min_bp q v (rev rest))
  /\ (forall q min_bp lhs v rest,
         parse_loop fuel min_bp lhs (rev q) = Return (v, rest) ->
         returns_loop min_bp lhs q v (rev rest)).
Proof.
  induction fuel as [|fuel [IHe IHl]]; [split; intros; discriminate|].
  split.
  - intros [|t q] min_bp v rest.
    + rewrite parse_expression_nil. discriminate.
    + rewrite parse_expression_cons. destruct (type t) eqn:Hty.
      * intros H. apply ret_atom; auto.
      * discriminate.
      * intros H. returned H. rewrite rev_involutive. now apply ret_eof.
  - intros [|t q] min_bp lhs v rest.
    + rewrite parse_loop_nil. discriminate.
    + rewrite parse_loop_cons. destruct (type t) eqn:Hty.
      * discriminate.
      * destruct (infix_binding_power t) as [e|[l_bp r_bp]] eqn:Hbp;
          [discriminate|].
        destruct (l_bp <? min_bp)%Z eqn:Hlt.
        { intros H. returned H. rewrite rev_involutive.
          now apply (loop_stop _ _ _ _ l_bp r_bp). }
        destruct (parse_expression fuel (rev q) r_bp)
          as [[rhs tokens2]| |] eqn:E1; try discriminate.
        intros H. apply IHe in E1.
        rewrite <- (rev_involutive tokens2) in H. apply IHl in H.
        now apply (loop_step _ _ _ _ l_bp r_bp rhs (rev tokens2)).
      * intros H. returned H. rewrite rev_involutive. now apply loop_eof.
Qed.

Lemma returns_shorter :
  (forall min_bp q v q',
      returns_expression min_bp q v q' -> length q' < length q)
  /\ (forall min_bp lhs q v q',
         returns_loop min_bp lhs q v q' -> length q' <= length q).
Proof.
  apply returns_mutind; intros; cbn [length] in *; lia.
Qed.

Lemma returns_complete :
  (forall min_bp q v q',
      returns_expression min_bp q v q' ->
      forall fuel, length q < fuel ->
      parse_expression fuel (rev q) min_bp = Return (v, rev q'))
  /\ (forall min_bp lhs q v q',
         returns_loop min_bp lhs q v q' ->
         forall fuel, length q < fuel ->
         parse_loop fuel min_bp lhs (rev q) = Return (v, rev q')).
Proof.
  apply returns_mutind.
  - intros min_bp t q Hty [|fuel] Hf; [lia|].
    now rewrite parse_expression_cons, Hty.
  - intros min_bp t q v q' Hty _ IH [|fuel] Hf; [lia|].
    rewrite parse_expression_cons, Hty. apply IH. cbn [length] in Hf. lia.
  - intros min_bp lhs t q Hty [|fuel] Hf; [lia|].
    now rewrite parse_loop_cons, Hty.
  - intros min_bp lhs t q l_bp r_bp Hty Hbp Hlt [|fuel] Hf; [lia|].
    now rewrite parse_loop_cons, Hty, Hbp, Hlt.
  - intros min_bp lhs t q l_bp r_bp rhs q1 v q2 Hty Hbp Hlt He IHe _ IHl
      [|fuel] Hf; [lia|].
    cbn [length] in Hf.
    rewrite parse_loop_cons, Hty, Hbp, Hlt, IHe by lia.
    apply IHl. apply (proj1 returns_shorter) in He. lia.
Qed.

(** A call returns [v] and leaves [rest] exactly when there is a
    derivation. *)
Lemma returns_iff (fuel : nat) (tokens rest : list Token) (min_bp : Z)
  (v : option Expression) :
  length tokens < fuel ->
  parse_expression fuel tokens min_bp = Return (v, rest)
  <-> returns_expression min_bp (rev tokens) v (rev rest).
Proof.
  intros Hf. split.
  - rewrite <- (rev_involutive tokens) at 1.
    apply (proj1 (returns_sound fuel)).
  - intros H. rewrite <- (rev_involutive tokens), <- (rev_involutive rest).
    apply (proj1 returns_complete); [exact H|]. now rewrite length_rev.
Qed.

(** *** What a derivation tells about the tree and the tokens *)

Lemma erase_EOF (t : Token) : type t = EOF -> erase t = None.
Proof. unfold erase, has_type. now intros ->. Qed.

Lemma erase_ATOM (t : Token) : type t = ATOM -> erase t = Some t.
Proof. unfold erase, has_type. now intros ->. Qed.

Lemma erase_OP (t : Token) : type t = OP -> erase t = Some t.
Proof. unfold erase, has_type. now intros ->. Qed.

Lemma supported_of (t : Token) (l_bp r_bp : Z) :
  type t = OP -> infix_binding_power t = inr (l_bp, r_bp) ->
  supported t = true.
Proof.
  unfold supported, infix_binding_power, has_type. intros -> H.
  now destruct (lookup (value t) table).
Qed.

Lemma inorder_operation (t : Token) (lhs : Expression)
  (rhs : option Expression) :
  inorder (Operation t [Some lhs; rhs])
  = inorder lhs ++ Some t :: operand_inorder rhs.
Proof. cbn. rewrite app_nil_r. now destruct rhs. Qed.

Lemma returns_inorder :
  (forall min_bp q v q',
      returns_expression min_bp q v q' ->
      exists c, q = c ++ q' /\ map erase c = operand_inorder v)
  /\ (forall min_bp lhs q v q',
         returns_loop min_bp lhs q v q' ->
         exists e c, v = Some e /\ q = c ++ q'
                     /\ inorder e = inorder lhs ++ map erase c).
Proof.
  apply returns_mutind.
  - intros min_bp t q Hty. exists [t]. split; [reflexivity|].
    cbn. now rewrite (erase_EOF _ Hty).
  - intros min_bp t q v q' Hty _ (e & c & -> & -> & He).
    exists (t :: c). split; [reflexivity|].
    cbn [map operand_inorder]. now rewrite He, (erase_ATOM _ Hty).
  - intros min_bp lhs t q _. exists lhs, []. now rewrite app_nil_r.
  - intros min_bp lhs t q l_bp r_bp _ _ _. exists lhs, [].
    now rewrite app_nil_r.
  - intros min_bp lhs t q l_bp r_bp rhs q1 v q2 Hty _ _ _ (c1 & -> & H1)
      _ (e & c2 & -> & -> & H2).
    exists e, (t :: c1 ++ c2). split; [reflexivity|].
    split; [cbn [app]; now rewrite app_assoc|].
    rewrite H2, inorder_operation, <- H1.
    cbn [map]. rewrite map_app, (erase_OP _ Hty), <- app_assoc.
    reflexivity.
Qed.

Lemma returns_binary :
  (forall min_bp q v q',
      returns_expression min_bp q v q' ->
      forall e, v = Some e -> binary e = true)
  /\ (forall min_bp lhs q v q',
         returns_loop min_bp lhs q v q' ->
         binary lhs = true -> forall e, v = Some e -> binary e = true).
Proof.
  apply returns_mutind.
  - intros; discriminate.
  - intros min_bp t q v q' Hty _ IH e He. apply IH; [|exact He].
    cbn. unfold has_type. now rewrite Hty.
  - intros min_bp lhs t q _ Hl e [= <-]. exact Hl.
  - intros min_bp lhs t q l_bp r_bp _ _ _ Hl e [= <-]. exact Hl.
  - intros min_bp lhs t q l_bp r_bp rhs q1 v q2 Hty Hbp _ _ IHe _ IHl Hl e He.
    apply IHl; [|exact He]. cbn [binary].
    rewrite (supported_of _ _ _ Hty Hbp), Hl.
    destruct rhs as [x|]; [|reflexivity]. now rewrite (IHe x eq_refl).
Qed.

Lemma returns_stopped :
  (forall min_bp q v q',
      returns_expression min_bp q v q' ->
      forall e, v = Some e -> stopped min_bp q')
  /\ (forall min_bp lhs q v q',
         returns_loop min_bp lhs q v q' -> stopped min_bp q').
Proof.
  apply returns_mutind; try (intros; discriminate); auto.
  - intros min_bp lhs t q Hty. exists t, q. auto.
  - intros min_bp lhs t q l_bp r_bp Hty Hbp Hlt. exists t, q.
    split; [reflexivity|]. right. apply (stops_head _ _ _ _ _ Hty Hbp Hlt).
Qed.

Lemma returns_none (min_bp : Z) (q q' : list Token) :
  returns_expression min_bp q None q' <->
  exists t, q = t :: q' /\ type t = EOF.
Proof.
  split.
  - intros H. inversion H as [bp t q0 Hty|bp t q0 v q0' Hty Hl]; subst.
    + eauto.
    + apply (proj2 returns_inorder) in Hl as (e & c & He & _). discriminate He.
  - intros (t & -> & Hty). now apply ret_eof.
Qed.

(** *** Chains *)

Lemma pair_ind {A : Type} (P : list A -> Prop) :
  P [] -> (forall x, P [x]) -> (forall x y l, P l -> P (x :: y :: l)) ->
  forall l, P l.
Proof.
  intros H0 H1 H2 l.
  enough (H : P l /\ forall x, P (x :: l)) by apply H.
  induction l as [|y l [IH1 IH2]]; split; auto.
Qed.

Lemma chain_app (x y : list Token) :
  chain x = true -> chain y = true -> chain (x ++ y) = true.
Proof.
  induction x as [| |o a x IH] using pair_ind; intros Hx Hy.
  - exact Hy.
  - discriminate Hx.
  - cbn [chain app] in *.
    apply andb_prop in Hx as [Hoa Hx]. now rewrite Hoa, IH.
Qed.

Lemma eof_free_app (x y : list Token) :
  eof_free (x ++ y) = eof_free x && eof_free y.
Proof. apply forallb_app. Qed.

Lemma chain_eof_free (q : list Token) : chain q = true -> eof_free q = true.
Proof.
  induction q as [| |o a q IH] using pair_ind; intros H;
    [reflexivity|discriminate H|].
  cbn [chain] in H. apply andb_prop in H as [[Ho Ha]%andb_prop Hq].
  apply supported_inv in Ho as [Ho _]. apply has_type_eq in Ha.
  cbn [eof_free forallb]. unfold has_type. rewrite Ho, Ha. cbn.
  now apply IH.
Qed.

Lemma operand_chain_eof_free (p : list Token) :
  operand_chain p = true -> eof_free p = true.
Proof.
  destruct p as [|a q]; [discriminate|]. cbn [operand_chain].
  intros [Ha Hq]%andb_prop. apply has_type_eq in Ha.
  cbn [eof_free forallb]. unfold has_type. rewrite Ha. cbn.
  now apply chain_eof_free.
Qed.

(** The tokens a returning call has consumed, when none has type [EOF],
    are a well-formed chain. *)
Lemma returns_chain :
  (forall min_bp q v q',
      returns_expression min_bp q v q' ->
      exists c, q = c ++ q' /\ (eof_free c = true -> operand_chain c = true))
  /\ (forall min_bp lhs q v q',
         returns_loop min_bp lhs q v q' ->
         exists c, q = c ++ q' /\ (eof_free c = true -> chain c = true)).
Proof.
  apply returns_mutind.
  - intros min_bp t q Hty. exists [t]. split; [reflexivity|].
    cbn. unfold has_type. rewrite Hty. discriminate.
  - intros min_bp t q v q' Hty _ (c & -> & Hc). exists (t :: c).
    split; [reflexivity|]. cbn [eof_free forallb operand_chain].
    intros [_ H]%andb_prop. unfold has_type. rewrite Hty. cbn.
    now apply Hc.
  - intros min_bp lhs t q _. now exists [].
  - intros min_bp lhs t q l_bp r_bp _ _ _. now exists [].
  - intros min_bp lhs t q l_bp r_bp rhs q1 v q2 Hty Hbp _ _ (c1 & -> & H1)
      _ (c2 & -> & H2).
    exists (t :: c1 ++ c2). split; [cbn [app]; now rewrite app_assoc|].
    cbn [eof_free forallb]. intros [_ H]%andb_prop.
    change (forallb _ (c1 ++ c2)) with (eof_free (c1 ++ c2)) in H.
    rewrite eof_free_app in H. apply andb_prop in H as [Hf1 Hf2].
    specialize (H1 Hf1). specialize (H2 Hf2).
    destruct c1 as [|a c1]; [discriminate H1|].
    cbn [operand_chain] in H1. apply andb_prop in H1 as [Ha Hc1].
    cbn [chain app].
    rewrite (supported_of _ _ _ Hty Hbp), Ha. cbn.
    now apply chain_app.
Qed.

Lemma stops_app (min_bp : Z) (q tail : list Token) :
  q <> [] -> stops min_bp (q ++ tail) = stops min_bp q.
Proof. now destruct q. Qed.



(** Where the consumed tokens end, when the call has stopped in front of
    the only token of type [EOF]. *)
Lemma split_at_eof (p c r : list Token) (eof t : Token) :
  eof_free p = true -> type t = EOF ->
  p ++ [eof] = c ++ t :: r -> c = p /\ t = eof /\ r = [].
Proof.
  revert c. induction p as [|a p IH]; intros c Hp Ht H.
  - destruct c as [|x c]; cbn in H.
    + injection H as -> <-. auto.
    + injection H as _ H. now destruct c.
  - cbn [eof_free forallb] in Hp. apply andb_prop in Hp as [Ha Hp].
    destruct c as [|x c]; cbn in H.
    + injection H as -> _. unfold has_type in Ha. now rewrite Ht in Ha.
    + injection H as -> H. destruct (IH c Hp Ht H) as (-> & -> & ->). auto.
Qed.

(** *** Operators of one level *)

Lemma table_gap (k : string) (l_bp r_bp : Z) :
  lookup k table = Some (l_bp, r_bp) -> (l_bp < r_bp)%Z.
Proof.
  unfold table. cbn [lookup].
  repeat (destruct (String.eqb k _); [intros [= <- <-]; lia|]).
  discriminate.
Qed.

Lemma level_head (l_bp r_bp : Z) (o a : Token) (q : list Token) :
  level_chain l_bp r_bp (o :: a :: q) = true ->
  type o = OP /\ infix_binding_power o = inr (l_bp, r_bp)
  /\ (l_bp < r_bp)%Z /\ type a = ATOM /\ level_chain l_bp r_bp q = true.
Proof.
  cbn [level_chain]. intros [[[Ho Hl]%andb_prop Ha]%andb_prop Hq]%andb_prop.
  apply has_type_eq in Ho, Ha. unfold infix_binding_power.
  destruct (lookup (value o) table) as [[l r]|] eqn:E; [|discriminate Hl].
  apply andb_prop in Hl as [->%Z.eqb_eq ->%Z.eqb_eq].
  apply table_gap in E. auto.
Qed.

Lemma level_fold (eof : Token) (rest : list Token) (l_bp r_bp min_bp : Z) :
  type eof = EOF -> (min_bp <= l_bp)%Z ->
  forall q lhs,
    level_chain l_bp r_bp q = true ->
    returns_loop min_bp lhs (q ++ eof :: rest) (Some (fold_chain lhs q))
      (eof :: rest).
Proof.
  intros He Hbp q.
  induction q as [| |o a q IH] using pair_ind; intros lhs Hq.
  - now apply loop_eof.
  - discriminate Hq.
  - destruct (level_head _ _ _ _ _ Hq) as (Ho & Hob & Hgap & Ha & Hq').
    cbn [fold_chain app].
    apply (loop_step _ _ _ _ l_bp r_bp (Some (Atom a)) (q ++ eof :: rest));
      auto.
    + apply Z.ltb_ge. lia.
    + apply ret_atom; [exact Ha|].
      destruct q as [|o' [|a' q']]; [now apply loop_eof|discriminate Hq'|].
      destruct (level_head _ _ _ _ _ Hq') as (Ho' & Hob' & _).
      apply (loop_stop _ _ _ _ l_bp r_bp); auto. apply Z.ltb_lt. lia.
Qed.

(** *** The grouping of the tree *)

Lemma binding_powers (t : Token) (l_bp r_bp : Z) :
  infix_binding_power t = inr (l_bp, r_bp) -> lbp t = l_bp /\ rbp t = r_bp.
Proof.
  unfold infix_binding_power, lbp, rbp.
  destruct (lookup (value t) table) as [[l r]|]; [|discriminate].
  now intros [= <- <-].
Qed.

Lemma stopped_ready (op : Token) (lhs x : Expression) (r_bp : Z)
  (q : list Token) :
  rbp op = r_bp -> stopped r_bp q ->
  left_ready (Operation op [Some lhs; Some x]) q.
Proof.
  intros Hr (t & r & -> & Hs). cbn. intros t' r' [= <- <-] Hty.
  destruct Hs as [Hs|Hs]; [congruence|].
  unfold stops in Hs. apply andb_prop in Hs as [_ Hs]. unfold lbp.
  destruct (lookup (value t) table) as [[l r0]|]; [|discriminate Hs].
  apply Z.ltb_lt in Hs. lia.
Qed.

Lemma returns_climbing :
  (forall min_bp q v q',
      returns_expression min_bp q v q' ->
      forall e, v = Some e ->
      climbing e = true /\ root_from min_bp e = true)
  /\ (forall min_bp lhs q v q',
         returns_loop min_bp lhs q v q' ->
         climbing lhs = true -> root_from min_bp lhs = true ->
         left_ready lhs q ->
         forall e, v = Some e ->
         climbing e = true /\ root_from min_bp e = true).
Proof.
  apply returns_mutind.
  - intros; discriminate.
  - intros min_bp t q v q' _ _ IH e He. now apply IH.
  - intros min_bp lhs t q _ Hc Hr _ e [= <-]. auto.
  - intros min_bp lhs t q l_bp r_bp _ _ _ Hc Hr _ e [= <-]. auto.
  - intros min_bp lhs t q l_bp r_bp rhs q1 v q2 Hty Hbp Hlt He IHe _ IHl
      Hc Hr Hready e Hv.
    destruct (binding_powers _ _ _ Hbp) as [Hl Hrb].
    apply IHl; [| |  |exact Hv].
    + cbn [climbing]. rewrite Hc. apply andb_true_intro. split.
      * apply andb_true_intro. split; [reflexivity|].
        destruct lhs as [a|o1 [|x1 [|[y1|] [|]]]]; try reflexivity.
        apply Z.ltb_lt. apply (Hready t q eq_refl Hty).
      * destruct rhs as [x|]; [|reflexivity].
        destruct (IHe x eq_refl) as [Hcx Hrx]. rewrite Hcx, Hrb. exact Hrx.
    + unfold root_from. cbn [root]. rewrite Hl.
      apply Z.leb_le. apply Z.ltb_ge in Hlt. lia.
    + destruct rhs as [x|]; [|exact I].
      apply (stopped_ready _ _ _ r_bp); [exact Hrb|].
      apply (proj1 returns_stopped _ _ _ _ He x eq_refl).
Qed.

(** *** Two operators between three atoms *)

Lemma binding_power_bound (t : Token) (l_bp r_bp : Z) :
  infix_binding_power t = inr (l_bp, r_bp) -> (10 <= l_bp)%Z.
Proof.
  unfold infix_binding_power.
  destruct (lookup (value t) table) as [[l r]|] eqn:E; [|discriminate].
  intros [= <- <-]. apply (table_lower_bound _ _ _ E).
Qed.

(** The second operator takes the middle atom exactly when its left
    binding power is at least the right binding power of the first. *)
Lemma two_operators (a o1 b o2 c eof : Token) (rest : list Token)
  (l1 r1 l2 r2 : Z) :
  type a = ATOM -> type b = ATOM -> type c = ATOM ->
  type o1 = OP -> type o2 = OP -> type eof = EOF ->
  infix_binding_power o1 = inr (l1, r1) ->
  infix_binding_power o2 = inr (l2, r2) ->
  returns_expression 0 (a :: o1 :: b :: o2 :: c :: eof :: rest)
    (Some (if (r1 <=? l2)%Z
           then Operation o1
                  [Some (Atom a);
                   Some (Operation o2 [Some (Atom b); Some (Atom c)])]
           else Operation o2
                  [Some (Operation o1 [Some (Atom a); Some (Atom b)]);
                   Some (Atom c)]))
    (eof :: rest).
Proof.
  intros Ha Hb Hc Ho1 Ho2 He H1 H2.
  pose proof (binding_power_bound _ _ _ H1) as B1.
  pose proof (binding_power_bound _ _ _ H2) as B2.
  assert (Hlast : forall min_bp lhs,
             returns_loop min_bp lhs (eof :: rest) (Some lhs) (eof :: rest))
    by (intros; now apply loop_eof).
  assert (Hc' : forall min_bp,
             returns_expression min_bp (c :: eof :: rest) (Some (Atom c))
               (eof :: rest))
    by (intros; apply ret_atom; auto).
  apply ret_atom; [exact Ha|].
  destruct (r1 <=? l2)%Z eqn:Hcmp.
  - apply Z.leb_le in Hcmp.
    apply (loop_step _ _ _ _ l1 r1
             (Some (Operation o2 [Some (Atom b); Some (Atom c)]))
             (eof :: rest)); auto.
    + apply Z.ltb_ge. lia.
    + apply ret_atom; [exact Hb|].
      apply (loop_step _ _ _ _ l2 r2 (Some (Atom c)) (eof :: rest)); auto.
      apply Z.ltb_ge. lia.
  - apply Z.leb_gt in Hcmp.
    apply (loop_step _ _ _ _ l1 r1 (Some (Atom b)) (o2 :: c :: eof :: rest));
      auto.
    + apply Z.ltb_ge. lia.
    + apply ret_atom; [exact Hb|].
      apply (loop_stop _ _ _ _ l2 r2); auto. apply Z.ltb_lt. lia.
    + apply (loop_step _ _ _ _ l2 r2 (Some (Atom c)) (eof :: rest)); auto.
      apply Z.ltb_ge. lia.
Qed.

(** *** Trees without [None] *)

Lemma climbing_grouped :
  forall e, binary e = true -> climbing e = true ->
            ~ In None (inorder e) -> grouped e = true.
Proof.
  fix IH 1. intros [t|op operands] Hb Hc Hn; [reflexivity|].
  destruct operands as [|[l|] [|r [|]]]; try discriminate Hb.
  rewrite inorder_operation in Hn.
  destruct r as [x|];
    [|exfalso; apply Hn, in_or_app; right; right; now left].
  cbn [binary] in Hb. apply andb_prop in Hb as [[_ Hbl]%andb_prop Hbx].
  cbn [climbing] in Hc.
  apply andb_prop in Hc as [[Hcl Hleft]%andb_prop [Hcx Hroot]%andb_prop].
  assert (Hnl : ~ In None (inorder l))
    by (intros H; apply Hn, in_or_app; now left).
  assert (Hnx : ~ In None (inorder x))
    by (intros H; apply Hn, in_or_app; right; now right).
  cbn [grouped]. rewrite (IH l Hbl Hcl Hnl), (IH x Hbx Hcx Hnx), Hroot.
  rewrite andb_true_r. cbn [andb].
  destruct l as [t|o1 ops1]; [reflexivity|]. cbn [root].
  destruct ops1 as [|[l1|] [|r1 [|]]]; try discriminate Hbl.
  destruct r1 as [y|]; [exact Hleft|].
  exfalso. apply Hnl. rewrite inorder_operation.
  apply in_or_app. right. right. now left.
Qed.

(** *** The exceptions of the parser *)

Lemma returns_suffix (fuel : nat) (q : list Token) (min_bp : Z)
  (v : option Expression) (rest : list Token) :
  parse_expression fuel (rev q) min_bp = Return (v, rest) ->
  exists c, q = c ++ rev rest.
Proof.
  intros H. apply (proj1 (returns_sound fuel)) in H.
  apply (proj1 returns_inorder) in H as (c & Hc & _). eauto.
Qed.

Lemma raised_on_incl (q q' : list Token) (e : PyExc) :
  incl q' q -> raised_on q' e -> raised_on q e.
Proof.
  unfold raised_on. intros Hi [H|[H|[H|[H|(t & Ht & H)]]]]; auto 6.
  do 4 right. exists t. auto.
Qed.

Lemma raise_inventory (fuel : nat) :
  (forall q min_bp e,
      parse_expression fuel (rev q) min_bp = Raise e -> raised_on q e)
  /\ (forall q min_bp lhs e,
         parse_loop fuel min_bp lhs (rev q) = Raise e -> raised_on q e).
Proof.
  induction fuel as [|fuel [IHe IHl]]; [split; intros; discriminate|].
  split.
  - intros [|t q] min_bp e.
    + rewrite parse_expression_nil. intros [= <-]. unfold raised_on. auto 6.
    + rewrite parse_expression_cons. destruct (type t).
      * intros H. apply IHl in H.
        apply (raised_on_incl _ q); [apply incl_tl, incl_refl|exact H].
      * intros [= <-]. unfold raised_on. auto.
      * discriminate.
  - intros [|t q] min_bp lhs e.
    + rewrite parse_loop_nil. intros [= <-]. unfold raised_on. auto 6.
    + rewrite parse_loop_cons. destruct (type t) eqn:Hty.
      * intros [= <-]. unfold raised_on. auto.
      * unfold infix_binding_power.
        destruct (lookup (value t) table) as [[l_bp r_bp]|] eqn:Hl.
        -- destruct (l_bp <? min_bp)%Z; [discriminate|].
           destruct (parse_expression fuel (rev q) r_bp)
             as [[rhs tokens2]|e1|] eqn:E1; [| |discriminate].
           ++ destruct (returns_suffix _ _ _ _ _ E1) as [c Hc].
              rewrite <- (rev_involutive tokens2). intros H. apply IHl in H.
              apply (raised_on_incl _ (rev tokens2)); [|exact H].
              apply incl_tl. rewrite Hc. apply incl_appr, incl_refl.
           ++ intros [= <-]. apply IHe in E1.
              apply (raised_on_incl _ q); [apply incl_tl, incl_refl|exact E1].
        -- intros [= <-]. do 4 right. exists t. cbn [In]. auto.
      * discriminate.
Qed.

Lemma eof_last_tail (x : Token) (q : list Token) :
  eof_last (x :: q) -> type x <> EOF -> eof_last q.
Proof.
  intros (q0 & b & H & Hb) Hx. destruct q0 as [|y q0]; cbn in H.
  - injection H as -> _. contradiction.
  - injection H as _ ->. now exists q0, b.
Qed.

Lemma eof_last_suffix (c r : list Token) :
  eof_last (c ++ r) -> r = [] \/ eof_last r.
Proof.
  intros (q0 & b & H & Hb).
  destruct r as [|y r0 _] using rev_ind; [now left|]. right.
  rewrite app_assoc in H. apply app_inj_tail in H as [_ ->].
  now exists r0, b.
Qed.

(** On tokens that end with a token of type [EOF], [next] is never called
    on the empty list. *)
Lemma never_pops (fuel : nat) :
  (forall q min_bp,
      eof_last q ->
      parse_expression fuel (rev q) min_bp
      <> Raise (IndexError "pop from empty list"))
  /\ (forall q min_bp lhs,
         q = [] \/ eof_last q ->
         parse_loop fuel min_bp lhs (rev q)
         <> Raise (IndexError "pop from empty list")).
Proof.
  induction fuel as [|fuel [IHe IHl]]; [split; intros; discriminate|].
  split.
  - intros [|t q] min_bp Hq.
    + destruct Hq as (q0 & b & H & _). now destruct q0.
    + rewrite parse_expression_cons. destruct (type t) eqn:Hty;
        try discriminate.
      apply IHl. right. apply (eof_last_tail t); [exact Hq|congruence].
  - intros [|t q] min_bp lhs Hq.
    + rewrite parse_loop_nil. discriminate.
    + destruct Hq as [Hq|Hq]; [discriminate Hq|].
      rewrite parse_loop_cons. destruct (type t) eqn:Hty; try discriminate.
      destruct (infix_binding_power t) as [e|[l_bp r_bp]] eqn:Hbp.
      * unfold infix_binding_power in Hbp.
        destruct (lookup (value t) table); [discriminate Hbp|].
        injection Hbp as <-. discriminate.
      * destruct (l_bp <? min_bp)%Z; [discriminate|].
        assert (Hq' : eof_last q)
          by (apply (eof_last_tail t); [exact Hq|congruence]).
        destruct (parse_expression fuel (rev q) r_bp)
          as [[rhs tokens2]|e1|] eqn:E1; [| |discriminate].
        -- destruct (returns_suffix _ _ _ _ _ E1) as [c Hc].
           rewrite <- (rev_involutive tokens2). apply IHl.
           apply (eof_last_suffix c). now rewrite <- Hc.
        -- intros [= ->]. now apply (IHe q r_bp Hq').
Qed.

End TreeFacts.

(** * The properties of the specification *)

Import Lexer Parser Shape.
#[local] Open Scope list_scope.

(** ** Precedence and associativity *)

(** C1.  Parsing ["1 + 2 * 3"] returns the operation [+] whose operands are
    the atom [1] and the operation [*] on the atoms [2] and [3], and it does
    so because of the binding powers of the table, [(10, 11)] for [+] and
    [(20, 21)] for [*]: of two operators between three atoms, the second
    groups the middle atom with the third exactly when its left binding
    power is at least the right binding power of the first, and otherwise
    the first groups the first two atoms. *)
Theorem precedence_example :
  infix_binding_power (mkToken OP "+") = inr (10, 11)%Z
  /\ infix_binding_power (mkToken OP "*") = inr (20, 21)%Z
  /\ (forall (a o1 b o2 c eof : Token) (rest : list Token)
        (l1 r1 l2 r2 : Z) (fuel : nat),
        type a = ATOM -> type b = ATOM -> type c = ATOM ->
        type o1 = OP -> type o2 = OP -> type eof = EOF ->
        infix_binding_power o1 = inr (l1, r1) ->
        infix_binding_power o2 = inr (l2, r2) ->
        length (a :: o1 :: b :: o2 :: c :: eof :: rest) < fuel ->
        parse_expression fuel
          (rev (a :: o1 :: b :: o2 :: c :: eof :: rest)) 0
        = Return
            (Some (if (r1 <=? l2)%Z
                   then Operation o1
                          [Some (Atom a);
                           Some (Operation o2
                                   [Some (Atom b); Some (Atom c)])]
                   else Operation o2
                          [Some (Operation o1
                                   [Some (Atom a); Some (Atom b)]);
                           Some (Atom c)]),
             rev (eof :: rest)))
  /\ parse "1 + 2 * 3"
     = Return (Some
         (Operation (mkToken OP "+")
            [Some (Atom (mkToken ATOM "1"));
             Some (Operation (mkToken OP "*")
                     [Some (Atom (mkToken ATOM "2"));
                      Some (Atom (mkToken ATOM "3"))])])).
Proof.
  assert (Hlaw : forall (a o1 b o2 c eof : Token) (rest : list Token)
                   (l1 r1 l2 r2 : Z) (fuel : nat),
             type a = ATOM -> type b = ATOM -> type c = ATOM ->
             type o1 = OP -> type o2 = OP -> type eof = EOF ->
             infix_binding_power o1 = inr (l1, r1) ->
             infix_binding_power o2 = inr (l2, r2) ->
             length (a :: o1 :: b :: o2 :: c :: eof :: rest) < fuel ->
             parse_expression fuel
               (rev (a :: o1 :: b :: o2 :: c :: eof :: rest)) 0
             = Return
                 (Some (if (r1 <=? l2)%Z
                        then Operation o1
                               [Some (Atom a);
                                Some (Operation o2
                                        [Some (Atom b); Some (Atom c)])]
                        else Operation o2
                               [Some (Operation o1
                                        [Some (Atom a); Some (Atom b)]);
                                Some (Atom c)]),
                  rev (eof :: rest))).
  { intros a o1 b o2 c eof rest l1 r1 l2 r2 fuel
      Ha Hb Hc Ho1 Ho2 He H1 H2 Hf.
    apply TreeFacts.returns_iff; [now rewrite length_rev|].
    rewrite !rev_involutive.
    now apply (TreeFacts.two_operators a o1 b o2 c eof rest l1 r1 l2 r2). }
  split; [reflexivity|]. split; [reflexivity|]. split; [exact Hlaw|].
  unfold parse.
  assert (Ht : lexicalize "1 + 2 * 3"
               = rev [mkToken ATOM "1"; mkToken OP "+"; mkToken ATOM "2";
                      mkToken OP "*"; mkToken ATOM "3"; mkToken EOF "EOF"])
    by reflexivity.
  rewrite Ht.
  rewrite (Hlaw _ _ _ _ _ _ [] 10%Z 11%Z 20%Z 21%Z);
    try reflexivity.
  rewrite length_rev. cbn [length]. lia.
Qed.

Lemma precedence_example_witness :
  let a := mkToken ATOM "1" in
  let o1 := mkToken OP "*" in
  let b := mkToken ATOM "2" in
  let o2 := mkToken OP "+" in
  let c := mkToken ATOM "3" in
  let eof := mkToken EOF "EOF" in
  type a = ATOM /\ type b = ATOM /\ type c = ATOM
  /\ type o1 = OP /\ type o2 = OP /\ type eof = EOF
  /\ infix_binding_power o1 = inr (20, 21)%Z
  /\ infix_binding_power o2 = inr (10, 11)%Z
  /\ length (a :: o1 :: b :: o2 :: c :: eof :: []) < 7
  /\ reading_order (lexicalize "1 * 2 + 3")
     = a :: o1 :: b :: o2 :: c :: eof :: []
  /\ parse_expression 7 (rev (a :: o1 :: b :: o2 :: c :: eof :: [])) 0
     = Return
         (Some (Operation o2
                  [Some (Operation o1 [Some (Atom a); Some (Atom b)]);
                   Some (Atom c)]),
          rev (eof :: [])).
Proof.
  intros a o1 b o2 c eof.
  assert (Hf : length (a :: o1 :: b :: o2 :: c :: eof :: []) < 7)
    by (cbn [length]; lia).
  repeat (split; [reflexivity|]).
  split; [exact Hf|]. split; [reflexivity|].
  exact (proj1 (proj2 (proj2 precedence_example))
           a o1 b o2 c eof [] 20%Z 21%Z 10%Z 11%Z 7
           eq_refl eq_refl eq_refl eq_refl eq_refl eq_refl eq_refl eq_refl
           Hf).
Defined.

(** C3.  On ["1 - 2 - 3"] the lexer yields the three atoms and no operator,
    and parsing raises the [SyntaxError] for two adjacent atoms; handed the
    tokens [1 - 2 - 3] themselves, [parse_expression] returns the tree
    folded to the left. *)
Theorem minus_example :
  reading_order (lexicalize "1 - 2 - 3")
  = [mkToken ATOM "1"; mkToken ATOM "2"; mkToken ATOM "3"; mkToken EOF "EOF"]
  /\ parse "1 - 2 - 3" = Raise (SyntaxError "Expect an operation, not an atom")
  /\ parse_expression 7
       (rev [mkToken ATOM "1"; mkToken OP "-"; mkToken ATOM "2";
             mkToken OP "-"; mkToken ATOM "3"; mkToken EOF "EOF"]) 0
     = Return
         (Some
            (Operation (mkToken OP "-")
               [Some (Operation (mkToken OP "-")
                        [Some (Atom (mkToken ATOM "1"));
                         Some (Atom (mkToken ATOM "2"))]);
                Some (Atom (mkToken ATOM "3"))]),
          [mkToken EOF "EOF"]).
Proof. repeat split; vm_compute; reflexivity. Qed.

(** ** The tokens *)

(** Against C4 as stated: the tokens of ["1 % 2"] hold no operator token
    [%]. *)
Lemma percent_not_extracted :
  ~ In (mkToken OP "%") (lexicalize "1 % 2").
Proof. vm_compute. intros [H|[H|[H|[]]]]; discriminate H. Qed.

(** C4, amended.  Each occurrence of one of the characters [+ * / ( )], and
    each occurrence of [and], [or], [not] that no letter or underscore
    touches, is extracted as one operator token with exactly that text: the
    tokens of the whole text are those of the text before it, the operator,
    and those of the text after it. *)
Theorem operator_extraction (s1 op s2 : string) :
  In op ["+"; "*"; "/"; "("; ")"]
  \/ (In op ["and"; "or"; "not"]
      /\ glued s1 op = false /\ glued op s2 = false) ->
  reading_order (lexicalize (s1 ++ op ++ s2))
  = scan s1 ++ mkToken OP op :: reading_order (lexicalize s2).
Proof.
  intros H. rewrite !LexerFacts.reading_order_lexicalize.
  assert (Hb : op <> "" /\ glued s1 op = false /\ glued op s2 = false
               /\ scan op = [mkToken OP op]).
  { destruct H as [H|(H & H1 & H2)].
    - cbn [In] in H.
      repeat (destruct H as [<-|H];
              [split; [discriminate|];
               split; [now apply LexerFacts.glued_single|];
               split; [now apply LexerFacts.glued_single|reflexivity]|]).
      destruct H.
    - cbn [In] in H.
      repeat (destruct H as [<-|H];
              [split; [discriminate|auto]|]).
      destruct H. }
  destruct Hb as (Hop & H1 & H2 & Hs).
  rewrite (LexerFacts.scan_between _ _ _ Hop H1 H2), Hs.
  now rewrite <- !app_assoc.
Qed.

Lemma operator_extraction_witness :
  (In "and" ["+"; "*"; "/"; "("; ")"]
   \/ (In "and" ["and"; "or"; "not"]
       /\ glued "1 " "and" = false /\ glued "and" "2" = false))
  /\ reading_order (lexicalize ("1 " ++ "and" ++ "2"))
     = scan "1 " ++ mkToken OP "and" :: reading_order (lexicalize "2").
Proof.
  assert (H : In "and" ["+"; "*"; "/"; "("; ")"]
              \/ (In "and" ["and"; "or"; "not"]
                  /\ glued "1 " "and" = false /\ glued "and" "2" = false)).
  { right. split; [left; reflexivity|split; reflexivity]. }
  split; [exact H|exact (operator_extraction "1 " "and" "2" H)].
Defined.

(** C6.  [_is_atom] accepts the identifier [x1], and the scan of ["x1"]
    splits it into the atoms [x] and [1]: the scanning pattern
    [[a-zA-Z_]+] stops at the digit. *)
Theorem identifier_with_digit_split :
  _is_atom "x1" = true
  /\ reading_order (lexicalize "x1")
     = [mkToken ATOM "x"; mkToken ATOM "1"; mkToken EOF "EOF"].
Proof. split; vm_compute; reflexivity. Qed.

(** Against C9 as stated: the tokens of ["1 , 2"] hold two tokens of type
    [EOF], not one. *)
Lemma comma_is_tagged_EOF :
  count_type EOF (lexicalize "1 , 2") <> 1.
Proof. vm_compute. discriminate. Qed.

(** C9, amended.  The token list is never empty and in reading order it
    ends with the token [EOF] of text [EOF]; its tokens of type [EOF] are
    that one and one for every comma of the text, so that it is the only
    one exactly on a text without comma. *)
Theorem lexicalize_terminated (expression : string) :
  lexicalize expression <> []
  /\ reading_order (lexicalize expression)
     = scan expression ++ [mkToken EOF "EOF"]
  /\ count_type EOF (lexicalize expression) = 1 + count_char "," expression.
Proof.
  split; [|split].
  - unfold lexicalize. rewrite rev_app_distr. discriminate.
  - apply LexerFacts.reading_order_lexicalize.
  - unfold lexicalize. rewrite rev_app_distr. cbn [rev app].
    rewrite LexerFacts.count_type_cons. cbn [has_type type TokenType_eqb].
    f_equal. unfold count_type.
    rewrite <- (LexerFacts.scan_count_EOF expression). unfold count_type.
    induction (scan expression) as [|t l IH]; [reflexivity|].
    cbn [rev filter]. rewrite filter_app, length_app. cbn [filter].
    destruct (has_type EOF t); cbn [length]; lia.
Qed.

(** ** Failures of the parser *)

Lemma parse_of_tokens (expression : string) (q : list Token)
  (r : Outcome (option Expression * list Token)) :
  reading_order (lexicalize expression) = q ->
  (forall fuel, length q < fuel -> parse_expression fuel (rev q) 0 = r) ->
  parse expression
  = match r with
    | Return (e, _) => Return e
    | Raise e => Raise e
    | OutOfFuel => OutOfFuel
    end.
Proof.
  unfold reading_order, parse. intros Hq Hr.
  assert (Ht : lexicalize expression = rev q)
    by now rewrite <- Hq, rev_involutive.
  rewrite Ht, Hr; [reflexivity|]. rewrite length_rev. lia.
Qed.

(** Against C2 as stated: on ["1 ( 2"] the failure is the [KeyError] of the
    table lookup, and no [SyntaxError]. *)
Lemma unsupported_operator_crash :
  parse "1 ( 2" = Raise (KeyError "(")
  /\ ~ exists msg, parse "1 ( 2" = Raise (SyntaxError msg).
Proof.
  split; [vm_compute; reflexivity|].
  intros [msg H]. vm_compute in H. discriminate H.
Qed.

(** C2, amended.  When the tokens are a well-formed chain of atoms and
    supported operators followed by an operator token without an entry in
    the binding-power table, parsing raises the [KeyError] of the lookup,
    whose key is the text of that operator. *)
Theorem unsupported_operator_KeyError (expression : string)
  (p rest : list Token) (u : Token) :
  reading_order (lexicalize expression) = p ++ u :: rest ->
  operand_chain p = true ->
  type u = OP -> lookup (value u) table = None ->
  parse expression = Raise (KeyError (value u)).
Proof.
  intros Hq Hp Hu Hl.
  rewrite (parse_of_tokens expression _ (Raise (KeyError (value u))) Hq);
    [reflexivity|].
  intros fuel Hf. now apply ParserFacts.chain_unsupported.
Qed.

Lemma unsupported_operator_KeyError_witness :
  reading_order (lexicalize "1 + 2 ( 3")
  = [mkToken ATOM "1"; mkToken OP "+"; mkToken ATOM "2"]
      ++ mkToken OP "(" :: [mkToken ATOM "3"; mkToken EOF "EOF"]
  /\ operand_chain [mkToken ATOM "1"; mkToken OP "+"; mkToken ATOM "2"] = true
  /\ type (mkToken OP "(") = OP
  /\ lookup (value (mkToken OP "(")) table = None
  /\ parse "1 + 2 ( 3" = Raise (KeyError "(").
Proof.
  repeat (split; [reflexivity|]).
  apply (unsupported_operator_KeyError "1 + 2 ( 3"
           [mkToken ATOM "1"; mkToken OP "+"; mkToken ATOM "2"]
           [mkToken ATOM "3"; mkToken EOF "EOF"] (mkToken OP "("));
    reflexivity.
Defined.

(** Against C5 as stated: on ["1 +"] the failure is the [IndexError] of
    [peek] on the empty token list, and no [SyntaxError]. *)
Lemma dangling_operator_crash :
  parse "1 +" = Raise (IndexError "list index out of range")
  /\ ~ exists msg, parse "1 +" = Raise (SyntaxError msg).
Proof.
  split; [vm_compute; reflexivity|].
  intros [msg H]. vm_compute in H. discriminate H.
Qed.

(** C5, amended.  When the tokens end with a supported operator and the
    final [EOF], and no other token has type [EOF], parsing raises an
    exception and returns no tree; when the tokens before the operator are a
    well-formed chain of atoms and supported operators, the exception is the
    [IndexError] of [peek] on the token list that the parse of the right
    operand has emptied. *)
Theorem dangling_operator (expression : string) (p : list Token) (o : Token) :
  reading_order (lexicalize expression) = p ++ [o; mkToken EOF "EOF"] ->
  supported o = true -> eof_free p = true ->
  (exists e, parse expression = Raise e)
  /\ (operand_chain p = true ->
      parse expression = Raise (IndexError "list index out of range")).
Proof.
  intros Hq Ho Hp. split.
  - unfold reading_order in Hq.
    assert (Ht : lexicalize expression = rev (p ++ [o; mkToken EOF "EOF"]))
      by now rewrite <- Hq, rev_involutive.
    destruct (ParserFacts.supported_inv _ Ho) as (Hty & _).
    destruct (ParserFacts.dangling_raises
                (S (length (lexicalize expression))) p o (mkToken EOF "EOF")
                Hp Hty eq_refl) as [e He].
    + rewrite Ht, length_rev. lia.
    + exists e. rewrite <- Ht in He. unfold parse. now rewrite He.
  - intros Hc.
    rewrite (parse_of_tokens expression _
               (Raise (IndexError "list index out of range")) Hq);
      [reflexivity|].
    intros fuel Hf. now apply ParserFacts.chain_dangling.
Qed.

Lemma dangling_operator_witness :
  reading_order (lexicalize "1 + 2 *")
  = [mkToken ATOM "1"; mkToken OP "+"; mkToken ATOM "2"]
      ++ [mkToken OP "*"; mkToken EOF "EOF"]
  /\ supported (mkToken OP "*") = true
  /\ eof_free [mkToken ATOM "1"; mkToken OP "+"; mkToken ATOM "2"] = true
  /\ operand_chain [mkToken ATOM "1"; mkToken OP "+"; mkToken ATOM "2"] = true
  /\ (exists e, parse "1 + 2 *" = Raise e)
  /\ parse "1 + 2 *" = Raise (IndexError "list index out of range").
Proof.
  repeat (split; [reflexivity|]).
  destruct (dangling_operator "1 + 2 *"
              [mkToken ATOM "1"; mkToken OP "+"; mkToken ATOM "2"]
              (mkToken OP "*") eq_refl eq_refl eq_refl) as [H1 H2].
  split; [exact H1|exact (H2 eq_refl)].
Defined.

(** With a comma behind the operator the parse of the right operand ends on
    the comma's [EOF] token, and the operation is returned with [None] as
    its second operand. *)
Example comma_after_operator :
  parse "1 +," = Return (Some (Operation (mkToken OP "+")
                                 [Some (Atom (mkToken ATOM "1")); None])).
Proof. vm_compute. reflexivity. Qed.

(** C7.  On the empty string and on a string of whitespace only, parsing
    returns [None] and raises nothing. *)
Theorem blank_input (expression : string) :
  blank expression = true -> parse expression = Return None.
Proof.
  intros Hb. unfold parse, lexicalize, scan.
  now rewrite (LexerFacts.findall_blank _ Hb).
Qed.

Lemma blank_input_witness :
  blank "   " = true /\ parse "   " = Return None.
Proof. split; [reflexivity|apply blank_input; reflexivity]. Defined.

(** C8.  When the first token read is an operator, [parse_expression]
    raises the [SyntaxError] for an operation at the start, in its first
    step: one unit of fuel is enough, so that neither the loop nor a
    recursive call has run and no expression has been built. *)
Theorem leading_operator (fuel : nat) (tokens q : list Token) (t : Token)
  (min_bp : Z) :
  reading_order tokens = t :: q -> type t = OP ->
  parse_expression (S fuel) tokens min_bp
  = Raise (SyntaxError "Operation cannot be the first symbol in an expression").
Proof.
  unfold reading_order. intros Hq Ht.
  assert (Hr : tokens = rev (t :: q)) by now rewrite <- Hq, rev_involutive.
  now rewrite Hr, ParserFacts.parse_expression_cons, Ht.
Qed.

Lemma leading_operator_witness :
  reading_order (lexicalize "* 1")
  = mkToken OP "*" :: [mkToken ATOM "1"; mkToken EOF "EOF"]
  /\ type (mkToken OP "*") = OP
  /\ parse_expression 1 (lexicalize "* 1") 0
     = Raise (SyntaxError
                "Operation cannot be the first symbol in an expression").
Proof.
  repeat (split; [reflexivity|]).
  apply (leading_operator 0 (lexicalize "* 1")
           [mkToken ATOM "1"; mkToken EOF "EOF"] (mkToken OP "*"));
    reflexivity.
Defined.

(** ** Termination *)

(** C10.  On every token list and for every minimum binding power,
    [parse_expression] and its loop end with a result, the same for every
    bound above the number of tokens: a call that returns has consumed at
    least one token, and the loop returns no more tokens than it was given. *)
Theorem parse_expression_terminates (tokens : list Token) (min_bp : Z)
  (fuel : nat) :
  length tokens < fuel ->
  (parse_expression fuel tokens min_bp <> OutOfFuel
   /\ parse_expression fuel tokens min_bp
      = parse_expression (S (length tokens)) tokens min_bp
   /\ forall v rest,
       parse_expression fuel tokens min_bp = Return (v, rest) ->
       length rest < length tokens)
  /\ forall lhs,
      parse_loop fuel min_bp lhs tokens <> OutOfFuel
      /\ parse_loop fuel min_bp lhs tokens
         = parse_loop (S (length tokens)) min_bp lhs tokens
      /\ forall v rest,
          parse_loop fuel min_bp lhs tokens = Return (v, rest) ->
          length rest <= length tokens.
Proof.
  intros Hf.
  rewrite <- (rev_involutive tokens).
  set (q := rev tokens).
  assert (Hq : length (rev q) = length q) by apply length_rev.
  assert (Hlt : length q < fuel) by (subst q; rewrite length_rev; lia).
  rewrite !Hq. split.
  - destruct (proj1 (ParserFacts.consumes (S (length q))) q min_bp)
      as [Hne _]; [lia|].
    assert (He : parse_expression fuel (rev q) min_bp
                 = parse_expression (S (length q)) (rev q) min_bp)
      by (apply ParserFacts.fuel_mono_expression; [lia|exact Hne]).
    destruct (proj1 (ParserFacts.consumes fuel) q min_bp Hlt) as [Hn Hr].
    auto.
  - intros lhs.
    destruct (proj2 (ParserFacts.consumes (S (length q))) q min_bp lhs)
      as [Hne _]; [lia|].
    assert (He : parse_loop fuel min_bp lhs (rev q)
                 = parse_loop (S (length q)) min_bp lhs (rev q))
      by (apply ParserFacts.fuel_mono_loop; [lia|exact Hne]).
    destruct (proj2 (ParserFacts.consumes fuel) q min_bp lhs Hlt) as [Hn Hr].
    auto.
Qed.

Lemma parse_expression_terminates_witness :
  let tokens := lexicalize "1 + 2 * 3" in
  length tokens < 9
  /\ (parse_expression 9 tokens 11 <> OutOfFuel
      /\ parse_expression 9 tokens 11
         = parse_expression (S (length tokens)) tokens 11
      /\ forall v rest,
          parse_expression 9 tokens 11 = Return (v, rest) ->
          length rest < length tokens)
  /\ forall lhs,
      parse_loop 9 11 lhs tokens <> OutOfFuel
      /\ parse_loop 9 11 lhs tokens
         = parse_loop (S (length tokens)) 11 lhs tokens
      /\ forall v rest,
          parse_loop 9 11 lhs tokens = Return (v, rest) ->
          length rest <= length tokens.
Proof.
  intros tokens.
  assert (H : length tokens < 9) by (vm_compute; lia).
  split; [exact H|exact (parse_expression_terminates tokens 11 9 H)].
Defined.

(** * Further properties of the code *)

Import Tree.

(** ** The tokens of the lexer *)

(** Every operator token of the lexer has one of the texts [+ * / ( )],
    [and], [or], [not]: no other member of [OPERATORS] is ever produced. *)
Theorem operator_tokens (expression : string) (t : Token) :
  In t (lexicalize expression) -> type t = OP ->
  In (value t) ["+"; "*"; "/"; "("; ")"; "and"; "or"; "not"].
Proof. apply ScanFacts.operator_values. Qed.

Lemma operator_tokens_witness :
  In (mkToken OP "*") (lexicalize "2 * x")
  /\ type (mkToken OP "*") = OP
  /\ In (value (mkToken OP "*"))
       ["+"; "*"; "/"; "("; ")"; "and"; "or"; "not"].
Proof.
  assert (H : In (mkToken OP "*") (lexicalize "2 * x"))
    by (vm_compute; tauto).
  split; [exact H|]. split; [reflexivity|].
  exact (operator_tokens "2 * x" (mkToken OP "*") H eq_refl).
Defined.

(** Every atom token of the lexer is a non-empty run of digits or a
    non-empty run of letters and underscores, and is no member of
    [OPERATORS]: an atom never mixes letters and digits. *)
Theorem atom_tokens (expression : string) (t : Token) :
  In t (lexicalize expression) -> type t = ATOM ->
  (run Re.digit (value t) || run Re.word_start (value t)) = true
  /\ in_OPERATORS (value t) = false.
Proof.
  intros [Hin| ->]%ScanFacts.in_lexicalize Hty; [|discriminate Hty].
  destruct (ScanFacts.scan_pieces _ _ Hin) as (m & Hm & ->).
  destruct (ScanFacts.classify_piece m Hm)
    as [(E & H)|[(E & _)|(_ & E)]]; rewrite E in *; try discriminate Hty.
  exact H.
Qed.

Lemma atom_tokens_witness :
  In (mkToken ATOM "x") (lexicalize "2 * x")
  /\ type (mkToken ATOM "x") = ATOM
  /\ (run Re.digit (value (mkToken ATOM "x"))
      || run Re.word_start (value (mkToken ATOM "x"))) = true
  /\ in_OPERATORS (value (mkToken ATOM "x")) = false.
Proof.
  assert (H : In (mkToken ATOM "x") (lexicalize "2 * x"))
    by (vm_compute; tauto).
  split; [exact H|]. split; [reflexivity|].
  exact (atom_tokens "2 * x" (mkToken ATOM "x") H eq_refl).
Defined.

(** A token of type [EOF] is the final one, of text [EOF], or a comma. *)
Theorem EOF_tokens (expression : string) (t : Token) :
  In t (lexicalize expression) -> type t = EOF ->
  t = mkToken EOF "EOF" \/ t = mkToken EOF ",".
Proof.
  intros [Hin| ->]%ScanFacts.in_lexicalize Hty; [|now left].
  destruct (ScanFacts.scan_pieces _ _ Hin) as (m & Hm & ->).
  destruct (ScanFacts.classify_piece m Hm)
    as [(E & _)|[(E & _)|(_ & E)]]; rewrite E in *; try discriminate Hty.
  now right.
Qed.

Lemma EOF_tokens_witness :
  In (mkToken EOF ",") (lexicalize "1 , 2")
  /\ type (mkToken EOF ",") = EOF
  /\ (mkToken EOF "," = mkToken EOF "EOF"
      \/ mkToken EOF "," = mkToken EOF ",").
Proof.
  assert (H : In (mkToken EOF ",") (lexicalize "1 , 2"))
    by (vm_compute; tauto).
  split; [exact H|]. split; [reflexivity|].
  exact (EOF_tokens "1 , 2" (mkToken EOF ",") H eq_refl).
Defined.

(** The texts of the scanned tokens, put together, are the text of the
    expression without the characters that are neither digit, letter,
    underscore nor one of [+ * / ( ) ,]: those are dropped in silence, and
    nothing else is lost, added or reordered. *)
Theorem token_texts (expression : string) :
  join (map value (scan expression)) = keep scanned expression.
Proof.
  unfold scan. rewrite map_map.
  rewrite (map_ext _ (fun m => m) ScanFacts.value_classify), map_id.
  apply ScanFacts.findall_join.
Qed.

(** Blank text between two parts of an expression separates their tokens
    and leaves none: the tokens of the whole are those of the first part
    and then those of the second. *)
Theorem blank_separates (s1 w s2 : string) :
  blank w = true -> w <> "" ->
  reading_order (lexicalize (s1 ++ w ++ s2))
  = scan s1 ++ reading_order (lexicalize s2).
Proof.
  intros Hw Hne. rewrite !LexerFacts.reading_order_lexicalize.
  rewrite (LexerFacts.scan_between s1 w s2 Hne
             (ScanFacts.glued_blank_r _ _ Hw) (ScanFacts.glued_blank_l _ _ Hw)).
  unfold scan at 2. rewrite (LexerFacts.findall_blank _ Hw).
  now rewrite <- app_assoc.
Qed.

Lemma blank_separates_witness :
  blank "  " = true /\ "  " <> ""
  /\ reading_order (lexicalize ("12" ++ "  " ++ "34"))
     = scan "12" ++ reading_order (lexicalize "34").
Proof.
  assert (H1 : blank "  " = true) by reflexivity.
  assert (H2 : "  " <> "") by discriminate.
  split; [exact H1|]. split; [exact H2|].
  exact (blank_separates "12" "  " "34" H1 H2).
Defined.

(** ** The trees the parser returns *)

Lemma sound_tokens (fuel : nat) (tokens rest : list Token) (min_bp : Z)
  (v : option Expression) :
  parse_expression fuel tokens min_bp = Return (v, rest) ->
  returns_expression min_bp (reading_order tokens) v (reading_order rest).
Proof.
  unfold reading_order. rewrite <- (rev_involutive tokens) at 1.
  apply (proj1 (TreeFacts.returns_sound fuel)).
Qed.

(** A returned tree, read from left to right, is the list of the tokens the
    call has consumed, in their order; they are a prefix of the tokens in
    reading order, the rest is left in the lexer, and a consumed token of
    type [EOF] shows as an operand [None]. *)
Theorem tree_inorder (fuel : nat) (tokens rest : list Token) (min_bp : Z)
  (e : Expression) :
  parse_expression fuel tokens min_bp = Return (Some e, rest) ->
  exists consumed,
    reading_order tokens = consumed ++ reading_order rest
    /\ map erase consumed = inorder e.
Proof.
  intros H. apply sound_tokens in H.
  apply (proj1 TreeFacts.returns_inorder) in H. exact H.
Qed.

Lemma tree_inorder_witness :
  let tokens := lexicalize "1 + 2" in
  let e := Operation (mkToken OP "+")
             [Some (Atom (mkToken ATOM "1")); Some (Atom (mkToken ATOM "2"))] in
  parse_expression 5 tokens 0 = Return (Some e, [mkToken EOF "EOF"])
  /\ exists consumed,
      reading_order tokens = consumed ++ reading_order [mkToken EOF "EOF"]
      /\ map erase consumed = inorder e.
Proof.
  intros tokens e.
  assert (H : parse_expression 5 tokens 0 = Return (Some e, [mkToken EOF "EOF"]))
    by (vm_compute; reflexivity).
  split; [exact H|exact (tree_inorder 5 tokens _ 0 e H)].
Defined.

(** In a returned tree every operation has exactly two operands, the first
    of them a tree, and an operator with an entry in the binding-power
    table; every leaf is a token of type [ATOM]. *)
Theorem tree_binary (fuel : nat) (tokens rest : list Token) (min_bp : Z)
  (e : Expression) :
  parse_expression fuel tokens min_bp = Return (Some e, rest) ->
  binary e = true.
Proof.
  intros H. apply sound_tokens in H.
  apply (proj1 TreeFacts.returns_binary _ _ _ _ H e eq_refl).
Qed.

Lemma tree_binary_witness :
  let tokens := lexicalize "1 +," in
  let e := Operation (mkToken OP "+")
             [Some (Atom (mkToken ATOM "1")); None] in
  parse_expression 5 tokens 0 = Return (Some e, [mkToken EOF "EOF"])
  /\ binary e = true.
Proof.
  intros tokens e.
  assert (H : parse_expression 5 tokens 0 = Return (Some e, [mkToken EOF "EOF"]))
    by (vm_compute; reflexivity).
  split; [exact H|exact (tree_binary 5 tokens _ 0 e H)].
Defined.

(** A call that returns a tree leaves the lexer in front of a token it has
    not consumed: a token of type [EOF], or an operator whose left binding
    power is below [min_bp]; at a [min_bp] of at most [10], as in the
    top-level call, it is a token of type [EOF]. *)
Theorem stops_in_front (fuel : nat) (tokens rest : list Token) (min_bp : Z)
  (e : Expression) :
  parse_expression fuel tokens min_bp = Return (Some e, rest) ->
  exists t,
    peek rest = inr t
    /\ (type t = EOF \/ stops min_bp (reading_order rest) = true)
    /\ ((min_bp <= 10)%Z -> type t = EOF).
Proof.
  intros H. apply sound_tokens in H.
  destruct (proj1 TreeFacts.returns_stopped _ _ _ _ H e eq_refl)
    as (t & r & Hr & Hs).
  exists t. unfold reading_order in *.
  assert (Hrest : rest = rev (t :: r)) by now rewrite <- Hr, rev_involutive.
  split; [rewrite Hrest; apply ParserFacts.peek_rev|].
  split; [exact Hs|]. intros Hbp.
  destruct Hs as [Hs|Hs]; [exact Hs|].
  now rewrite ParserFacts.stops_low in Hs.
Qed.

Lemma stops_in_front_witness :
  let tokens := lexicalize "2 * 3 + 4" in
  let e := Operation (mkToken OP "*")
             [Some (Atom (mkToken ATOM "2")); Some (Atom (mkToken ATOM "3"))] in
  let rest := [mkToken EOF "EOF"; mkToken ATOM "4"; mkToken OP "+"] in
  parse_expression 7 tokens 11 = Return (Some e, rest)
  /\ exists t,
      peek rest = inr t
      /\ (type t = EOF \/ stops 11 (reading_order rest) = true)
      /\ ((11 <= 10)%Z -> type t = EOF).
Proof.
  intros tokens e rest.
  assert (H : parse_expression 7 tokens 11 = Return (Some e, rest))
    by (vm_compute; reflexivity).
  split; [exact H|exact (stops_in_front 7 tokens rest 11 e H)].
Defined.

(** A call returns [None] exactly when the first token it reads has type
    [EOF]; it has then consumed that token and no other. *)
Theorem returns_None (fuel : nat) (tokens rest : list Token) (min_bp : Z) :
  length tokens < fuel ->
  parse_expression fuel tokens min_bp = Return (None, rest)
  <-> exists t, reading_order tokens = t :: reading_order rest
                /\ type t = EOF.
Proof.
  intros Hf. rewrite (TreeFacts.returns_iff fuel tokens rest min_bp None Hf).
  apply TreeFacts.returns_none.
Qed.

Lemma returns_None_witness :
  length (lexicalize ", 1") < 4
  /\ (parse_expression 4 (lexicalize ", 1") 0
      = Return (None, [mkToken EOF "EOF"; mkToken ATOM "1"])
      <-> exists t,
          reading_order (lexicalize ", 1")
          = t :: reading_order [mkToken EOF "EOF"; mkToken ATOM "1"]
          /\ type t = EOF).
Proof.
  assert (H : length (lexicalize ", 1") < 4) by (vm_compute; lia).
  split; [exact H|].
  exact (returns_None 4 (lexicalize ", 1")
           [mkToken EOF "EOF"; mkToken ATOM "1"] 0 H).
Defined.

(** ** Accepted and rejected expressions *)

(** When the tokens are a well-formed chain of atoms and supported
    operators followed by an atom, parsing raises the [SyntaxError] for an
    atom where an operation is expected. *)
Theorem adjacent_atoms (expression : string) (p rest : list Token)
  (a : Token) :
  reading_order (lexicalize expression) = p ++ a :: rest ->
  operand_chain p = true -> type a = ATOM ->
  parse expression = Raise (SyntaxError "Expect an operation, not an atom").
Proof.
  intros Hq Hp Ha.
  rewrite (parse_of_tokens expression _
             (Raise (SyntaxError "Expect an operation, not an atom")) Hq);
    [reflexivity|].
  intros fuel Hf. apply ParserFacts.chain_top; auto; [|lia].
  intros [|f] min_bp lhs Hlen; [lia|]. left.
  now rewrite ParserFacts.parse_loop_cons, Ha.
Qed.

Lemma adjacent_atoms_witness :
  reading_order (lexicalize "1 + 2 3")
  = [mkToken ATOM "1"; mkToken OP "+"; mkToken ATOM "2"]
      ++ mkToken ATOM "3" :: [mkToken EOF "EOF"]
  /\ operand_chain [mkToken ATOM "1"; mkToken OP "+"; mkToken ATOM "2"] = true
  /\ type (mkToken ATOM "3") = ATOM
  /\ parse "1 + 2 3"
     = Raise (SyntaxError "Expect an operation, not an atom").
Proof.
  repeat (split; [reflexivity|]).
  apply (adjacent_atoms "1 + 2 3"
           [mkToken ATOM "1"; mkToken OP "+"; mkToken ATOM "2"]
           [mkToken EOF "EOF"] (mkToken ATOM "3"));
    reflexivity.
Defined.

Lemma parse_returns (expression : string) (v : option Expression) :
  parse expression = Return v
  <-> exists rest,
      parse_expression (S (length (lexicalize expression)))
        (lexicalize expression) 0 = Return (v, rest).
Proof.
  unfold parse.
  destruct (parse_expression _ (lexicalize expression) 0) as [[e r]| |].
  - split; [intros [= <-]; eauto|intros (rest & [= <- _]); reflexivity].
  - split; [discriminate|intros (rest & H); discriminate H].
  - split; [discriminate|intros (rest & H); discriminate H].
Qed.

Lemma comma_free (expression : string) :
  count_char "," expression = 0 -> eof_free (scan expression) = true.
Proof.
  rewrite <- LexerFacts.scan_count_EOF. unfold count_type, eof_free.
  induction (scan expression) as [|t l IH]; [reflexivity|].
  cbn [filter forallb]. destruct (has_type EOF t); [discriminate|].
  exact IH.
Qed.

Lemma erase_eof_free (p : list Token) :
  eof_free p = true -> map erase p = map Some p.
Proof.
  induction p as [|t p IH]; [reflexivity|].
  cbn [eof_free forallb map]. intros [Ht Hp]%andb_prop.
  unfold erase at 1. destruct (has_type EOF t); [discriminate Ht|].
  f_equal. now apply IH.
Qed.

(** What a returned tree tells about a text without comma: the call has
    consumed all the scanned tokens, and they are a well-formed chain. *)
Lemma returned_chain (expression : string) (e : Expression) :
  count_char "," expression = 0 -> parse expression = Return (Some e) ->
  operand_chain (scan expression) = true
  /\ inorder e = map Some (scan expression).
Proof.
  intros Hc [rest H]%parse_returns. apply comma_free in Hc.
  apply sound_tokens in H.
  rewrite LexerFacts.reading_order_lexicalize in H.
  destruct (proj1 TreeFacts.returns_stopped _ _ _ _ H e eq_refl)
    as (t & r & Hr & [Ht|Hs]);
    [|now rewrite ParserFacts.stops_low in Hs].
  destruct (proj1 TreeFacts.returns_chain _ _ _ _ H) as (c & Hq & Hch).
  destruct (proj1 TreeFacts.returns_inorder _ _ _ _ H) as (c' & Hq' & Hin).
  rewrite Hr in Hq, Hq'.
  destruct (TreeFacts.split_at_eof _ _ _ _ _ Hc Ht Hq) as (-> & _).
  destruct (TreeFacts.split_at_eof _ _ _ _ _ Hc Ht Hq') as (-> & _).
  split; [now apply Hch|].
  cbn [operand_inorder] in Hin. now rewrite <- Hin, erase_eof_free.
Qed.



(** On a text without comma, the tree that parsing returns, read from left
    to right, is the list of the scanned tokens: every token of the
    expression is in the tree, once and in its place, and no operand is
    [None]. *)
Theorem accepted_tree_tokens (expression : string) (e : Expression) :
  count_char "," expression = 0 -> parse expression = Return (Some e) ->
  inorder e = map Some (scan expression).
Proof. intros Hc H. now apply returned_chain. Qed.

Lemma accepted_tree_tokens_witness :
  let e := Operation (mkToken OP "+")
             [Some (Atom (mkToken ATOM "1")); Some (Atom (mkToken ATOM "2"))] in
  count_char "," "1 + 2" = 0
  /\ parse "1 + 2" = Return (Some e)
  /\ inorder e = map Some (scan "1 + 2").
Proof.
  intros e.
  assert (H1 : count_char "," "1 + 2" = 0) by reflexivity.
  assert (H2 : parse "1 + 2" = Return (Some e)) by (vm_compute; reflexivity).
  split; [exact H1|]. split; [exact H2|].
  exact (accepted_tree_tokens "1 + 2" e H1 H2).
Defined.

(** On a text without comma, the tree that parsing returns is grouped by
    binding power at every operation: both operands are trees; a second
    operand that is an operation has a root whose left binding power is at
    least the right binding power of the operation; a first operand that is
    an operation has a root whose right binding power is above the left
    binding power of the operation. *)
Theorem tree_grouped (expression : string) (e : Expression) :
  count_char "," expression = 0 -> parse expression = Return (Some e) ->
  grouped e = true.
Proof.
  intros Hc H.
  destruct (returned_chain expression e Hc H) as [_ Hin].
  apply parse_returns in H as [rest H]. apply sound_tokens in H.
  apply TreeFacts.climbing_grouped.
  - apply (proj1 TreeFacts.returns_binary _ _ _ _ H e eq_refl).
  - apply (proj1 TreeFacts.returns_climbing _ _ _ _ H e eq_refl).
  - rewrite Hin. intros (t & Ht & _)%in_map_iff. discriminate Ht.
Qed.

Lemma tree_grouped_witness :
  let e := Operation (mkToken OP "+")
             [Some (Operation (mkToken OP "*")
                      [Some (Atom (mkToken ATOM "1"));
                       Some (Atom (mkToken ATOM "2"))]);
              Some (Atom (mkToken ATOM "3"))] in
  count_char "," "1 * 2 + 3" = 0
  /\ parse "1 * 2 + 3" = Return (Some e)
  /\ grouped e = true.
Proof.
  intros e.
  assert (H1 : count_char "," "1 * 2 + 3" = 0) by reflexivity.
  assert (H2 : parse "1 * 2 + 3" = Return (Some e))
    by (vm_compute; reflexivity).
  split; [exact H1|]. split; [exact H2|].
  exact (tree_grouped "1 * 2 + 3" e H1 H2).
Defined.

(** Operators of one level group to the left, whatever their number: on an
    atom followed by a chain whose operators all have the binding powers
    [(l_bp, r_bp)], a call with [min_bp] at most [l_bp] returns the tree
    folded to the left and stops in front of the token of type [EOF]. *)
Theorem left_fold (fuel : nat) (tokens q rest : list Token) (a eof : Token)
  (l_bp r_bp min_bp : Z) :
  reading_order tokens = a :: q ++ eof :: rest ->
  type a = ATOM -> level_chain l_bp r_bp q = true -> type eof = EOF ->
  (min_bp <= l_bp)%Z -> length tokens < fuel ->
  parse_expression fuel tokens min_bp
  = Return (Some (fold_chain (Atom a) q), rev (eof :: rest)).
Proof.
  intros Hq Ha Hl He Hbp Hf.
  apply (TreeFacts.returns_iff fuel tokens _ min_bp _ Hf).
  unfold reading_order in Hq. rewrite Hq, rev_involutive.
  apply ret_atom; [exact Ha|].
  now apply (TreeFacts.level_fold eof rest l_bp r_bp).
Qed.

Lemma left_fold_witness :
  let a := mkToken ATOM "1" in
  let q := [mkToken OP "-"; mkToken ATOM "2"; mkToken OP "+";
            mkToken ATOM "3"; mkToken OP "-"; mkToken ATOM "4"] in
  let eof := mkToken EOF "EOF" in
  let tokens := rev (a :: q ++ [eof]) in
  reading_order tokens = a :: q ++ eof :: []
  /\ type a = ATOM /\ level_chain 10 11 q = true /\ type eof = EOF
  /\ (0 <= 10)%Z /\ length tokens < 9
  /\ parse_expression 9 tokens 0
     = Return (Some (fold_chain (Atom a) q), rev (eof :: [])).
Proof.
  intros a q eof tokens.
  assert (H1 : reading_order tokens = a :: q ++ eof :: []) by reflexivity.
  assert (H2 : type a = ATOM) by reflexivity.
  assert (H3 : level_chain 10 11 q = true) by reflexivity.
  assert (H4 : type eof = EOF) by reflexivity.
  assert (H5 : (0 <= 10)%Z) by lia.
  assert (H6 : length tokens < 9) by (vm_compute; lia).
  repeat (split; [assumption|]).
  exact (left_fold 9 tokens q [] a eof 10 11 0 H1 H2 H3 H4 H5 H6).
Defined.

(** When the tokens are a well-formed chain followed by a supported
    operator and then another operator, parsing raises the [SyntaxError]
    for an operation at the start of an expression: it is the recursive call
    for the right operand that meets the second operator. *)
Theorem operator_after_operator (expression : string)
  (p rest : list Token) (o t : Token) :
  reading_order (lexicalize expression) = p ++ o :: t :: rest ->
  operand_chain p = true -> supported o = true -> type t = OP ->
  parse expression
  = Raise (SyntaxError "Operation cannot be the first symbol in an expression").
Proof.
  intros Hq Hp Ho Ht.
  rewrite (parse_of_tokens expression _
             (Raise (SyntaxError
                "Operation cannot be the first symbol in an expression")) Hq);
    [reflexivity|].
  intros fuel Hf. apply ParserFacts.chain_top; auto; [|lia].
  intros [|[|f]] min_bp lhs Hlen; cbn [length] in Hlen; try lia.
  destruct (ParserFacts.supported_inv _ Ho) as (Hty & l_bp & r_bp & _ & Hbp).
  rewrite ParserFacts.parse_loop_cons, Hty, Hbp.
  destruct (l_bp <? min_bp)%Z eqn:Hlt.
  - right. split; [reflexivity|].
    apply (ParserFacts.stops_head _ _ _ _ _ Hty Hbp Hlt).
  - left. now rewrite ParserFacts.parse_expression_cons, Ht.
Qed.

Lemma operator_after_operator_witness :
  reading_order (lexicalize "1 + * 2")
  = [mkToken ATOM "1"] ++ mkToken OP "+" :: mkToken OP "*"
      :: [mkToken ATOM "2"; mkToken EOF "EOF"]
  /\ operand_chain [mkToken ATOM "1"] = true
  /\ supported (mkToken OP "+") = true
  /\ type (mkToken OP "*") = OP
  /\ parse "1 + * 2"
     = Raise (SyntaxError
                "Operation cannot be the first symbol in an expression").
Proof.
  repeat (split; [reflexivity|]).
  apply (operator_after_operator "1 + * 2" [mkToken ATOM "1"]
           [mkToken ATOM "2"; mkToken EOF "EOF"]
           (mkToken OP "+") (mkToken OP "*"));
    reflexivity.
Defined.

(** ** The exceptions of a parse *)

(** Whatever the text, an exception that parsing raises is one of the two
    [SyntaxError]s of [parse_expression], the [IndexError] of [peek] on the
    empty list, or a [KeyError] whose key is one of [( ) and or not].  In
    particular [next] is never called on the empty list. *)
Theorem raised_exceptions (expression : string) (e : PyExc) :
  parse expression = Raise e ->
  e = SyntaxError "Operation cannot be the first symbol in an expression"
  \/ e = SyntaxError "Expect an operation, not an atom"
  \/ e = IndexError "list index out of range"
  \/ exists k, In k ["("; ")"; "and"; "or"; "not"] /\ e = KeyError k.
Proof.
  unfold parse.
  set (fuel := S (length (lexicalize expression))).
  destruct (parse_expression fuel (lexicalize expression) 0)
    as [[v r]|e'|] eqn:E; try discriminate.
  intros [= ->].
  assert (Hq : lexicalize expression
               = rev (scan expression ++ [mkToken EOF "EOF"]))
    by reflexivity.
  pose proof E as E'. rewrite Hq in E'.
  pose proof (proj1 (TreeFacts.raise_inventory fuel) _ _ _ E')
    as [H|[H|[H|[H|(t & Hin & Hty & Hl & H)]]]]; auto.
  - exfalso. rewrite H in E'.
    apply (proj1 (TreeFacts.never_pops fuel) _ 0%Z) in E'; [exact E'|].
    now exists (scan expression), (mkToken EOF "EOF").
  - do 3 right. exists (value t). split; [|exact H].
    assert (Hin' : In t (lexicalize expression))
      by (rewrite Hq; now apply -> in_rev).
    pose proof (ScanFacts.operator_values _ _ Hin' Hty) as Hv.
    cbn [In] in Hv |- *.
    destruct Hv as [Hv|[Hv|[Hv|Hv]]];
      [rewrite <- Hv in Hl; discriminate Hl .. | tauto].
Qed.

Lemma raised_exceptions_witness :
  parse "1 and 2" = Raise (KeyError "and")
  /\ (KeyError "and"
      = SyntaxError "Operation cannot be the first symbol in an expression"
      \/ KeyError "and" = SyntaxError "Expect an operation, not an atom"
      \/ KeyError "and" = IndexError "list index out of range"
      \/ exists k, In k ["("; ")"; "and"; "or"; "not"]
                   /\ KeyError "and" = KeyError k).
Proof.
  assert (H : parse "1 and 2" = Raise (KeyError "and"))
    by (vm_compute; reflexivity).
  split; [exact H|exact (raised_exceptions "1 and 2" (KeyError "and") H)].
Defined.

(** ** Printing tokens *)

(** [Token.__repr__] tells tokens apart: two tokens with the same
    representation have the same type and the same text. *)
Theorem Token_repr_injective (t1 t2 : Token) :
  Repr.Token_repr t1 = Repr.Token_repr t2 -> t1 = t2.
Proof.
  destruct t1 as [ty1 v1], t2 as [ty2 v2]. unfold Repr.Token_repr.
  cbn [type value].
  destruct ty1, ty2; cbn; intros H; try discriminate H;
    injection H as ->; reflexivity.
Qed.

Lemma Token_repr_injective_witness :
  Repr.Token_repr (mkToken OP "+") = Repr.Token_repr (mkToken OP "+")
  /\ mkToken OP "+" = mkToken OP "+".
Proof.
  assert (H : Repr.Token_repr (mkToken OP "+")
              = Repr.Token_repr (mkToken OP "+")) by reflexivity.
  split; [exact H|].
  exact (Token_repr_injective (mkToken OP "+") (mkToken OP "+") H).
Defined.
